(** * OscConnection: the OSC parameter mirror of OscGoesBrrr

    A shallow embedding of [src/main/OscConnection.ts] (the OSCQuery
    revision of the class, with [OscValue] at the end of the file) and the
    properties of its parameter store, bulk reconciliation, retry timer,
    sender filter, outbound dispatch and raw proxy path.

    Conventions of the embedding:
    - a JS [number] is an IEEE 754 binary64 value, i.e. a primitive [float];
    - a JS string is a [string] of code units below 256;
    - the [Map<string,OscValue>] is a [gmap string OscValue];
    - objects with identity (the attempt token [{}], sockets, the OSCQuery
      server, timer handles, pending promises) are natural numbers handed
      out by an allocation counter;
    - every method runs in a small state-and-output monad over the [World]
      (the fields of the class plus the event loop's pending work), the
      output being the list of externally visible [Effect]s;
    - an [async] method is cut at each [await]: the part before it registers
      the awaited promise, the part after it runs when the event loop
      delivers the outcome;
    - a call that can throw where nothing catches returns the exception, if
      it throws one; the exception ends the listener it is thrown in and
      shows in the output as [Uncaught]. *)

From stdpp Require Import gmap strings list fin_maps.
From Stdlib Require Import ZArith Ascii String Strings.Byte.
From Stdlib Require Import Floats.PrimFloat Floats.SpecFloat Floats.FloatOps
  Floats.FloatAxioms.

Local Open Scope string_scope.
Local Open Scope Z_scope.

(** A decimal float literal denotes the binary64 value nearest to it, as it
    does in JavaScript. *)
Set Warnings "-inexact-float".

(** ** JavaScript values *)

Module Js.

(** The values an OSC argument or an OSCQuery node can carry. *)
Inductive Value : Type :=
| Undefined
| Null
| Number (f : float)
| Boolean (b : bool)
| Str (s : string)
| Object (id : nat).

(** [typeof v == 'number'] *)
Definition is_number (v : Value) : bool :=
  match v with Number _ => true | _ => false end.

(** [v === undefined] *)
Definition is_undefined (v : Value) : bool :=
  match v with Undefined => true | _ => false end.

(** An [Error] object, kept as its message. *)
Definition Error : Type := string.

(** The settled state of a promise. *)
Inductive Settled (A : Type) : Type :=
| Resolved (a : A)
| Rejected (e : Error).
Arguments Resolved {A} a.
Arguments Rejected {A} e.

(** *** String primitives used by the class *)

(** [s.startsWith(p)] *)
Definition startsWith (p s : string) : bool := String.prefix p s.

(** [s.substring(n)] *)
Definition substring_from (n : nat) (s : string) : string :=
  String.substring n (String.length s - n) s.

(** [s.includes(c)] for a one-character needle. *)
Fixpoint includes (c : ascii) (s : string) : bool :=
  match s with
  | EmptyString => false
  | String d r => if Ascii.eqb c d then true else includes c r
  end.

(** [s.split(c)] for a one-character separator: never empty, the pieces
    between the separators in order. *)
Fixpoint split (c : ascii) (s : string) : list string :=
  match s with
  | EmptyString => [EmptyString]
  | String d r =>
      if Ascii.eqb c d then EmptyString :: split c r
      else match split c r with
           | [] => [String d EmptyString]
           | p :: ps => String d p :: ps
           end
  end.

(** White space and line terminators among the code units below 256:
    TAB, LF, VT, FF, CR, SP and NBSP. *)
Definition is_space (c : ascii) : bool :=
  let n := nat_of_ascii c in
  ((9 <=? n) && (n <=? 13) || (n =? 32) || (n =? 160))%nat.

Fixpoint trimStart (s : string) : string :=
  match s with
  | EmptyString => EmptyString
  | String c r => if is_space c then trimStart r else s
  end.

Fixpoint trimEnd (s : string) : string :=
  match s with
  | EmptyString => EmptyString
  | String c r =>
      match trimEnd r with
      | EmptyString => if is_space c then EmptyString else String c EmptyString
      | r' => String c r'
      end
  end.

(** [s.trim()] *)
Definition trim (s : string) : string := trimEnd (trimStart s).

(** The value of a digit in the given radix, when it is one. *)
Definition digit (radix : Z) (c : ascii) : option Z :=
  let n := Z.of_nat (nat_of_ascii c) in
  let v := if (48 <=? n) && (n <=? 57) then Some (n - 48)
           else if (97 <=? n) && (n <=? 122) then Some (n - 87)
           else if (65 <=? n) && (n <=? 90) then Some (n - 55)
           else None in
  match v with
  | Some d => if d <? radix then Some d else None
  | None => None
  end.

(** The longest prefix of digits, most significant first. *)
Fixpoint digits (radix : Z) (s : string) : list Z :=
  match s with
  | EmptyString => []
  | String c r =>
      match digit radix c with
      | Some d => d :: digits radix r
      | None => []
      end
  end.

Definition digits_value (radix : Z) (ds : list Z) : Z :=
  fold_left (fun acc d => acc * radix + d) ds 0.

(** The Number value of a mathematical integer: the binary64 value
    nearest to it, ties to even, and an infinity past the largest one. So
    2^53 + 1 becomes 9007199254740992 and a digit run of 400 digits
    becomes [Infinity]. *)
Definition number (n : Z) : float := SF2Prim (binary_normalize prec emax n 0 false).

(** [parseInt(s)] with no radix argument: leading white space, an
    optional sign, an optional [0x] prefix, then digits. With no digit the
    result is [NaN]; otherwise it is the Number value of the integer the
    digits write, negated after a minus sign (so that ["-0"] reads as -0).
    ECMAScript lets an engine replace decimal digits after the twentieth
    significant one by zeros; the embedding takes the exact reading, which
    is the only one up to twenty digits. *)
Definition parseInt (s : string) : float :=
  let s1 := trimStart s in
  let '(negative, s2) :=
    match s1 with
    | String "-"%char r => (true, r)
    | String "+"%char r => (false, r)
    | _ => (false, s1)
    end in
  let '(radix, s3) :=
    match s2 with
    | String "0"%char (String "x"%char r) => (16, r)
    | String "0"%char (String "X"%char r) => (16, r)
    | _ => (10, s2)
    end in
  match digits radix s3 with
  | [] => nan
  | ds =>
      let mathInt := number (digits_value radix ds) in
      if negative then PrimFloat.opp mathInt else mathInt
  end.

(** [isNaN(x)] for a number. *)
Definition isNaN (x : float) : bool := PrimFloat.is_nan x.

(** A number with no fractional part. *)
Definition is_integer (x : float) : bool :=
  match Prim2SF x with
  | S754_zero _ => true
  | S754_finite _ m e => (0 <=? e) || (Z.pos m mod 2 ^ (- e) =? 0)
  | _ => false
  end.

End Js.

(** ** A parameter cell: [class OscValue] *)

Record OscValue : Type := mkOscValue {
  value : Js.Value;
  delta : float
}.

Module Cell.

(** [new OscValue()]: [value = undefined], [delta = 0]. *)
Definition fresh : OscValue := {| value := Js.Undefined; delta := 0%float |}.

(** [clearDelta()] *)
Definition clearDelta (c : OscValue) : OscValue :=
  {| value := value c; delta := 0%float |}.

(** [receivedUpdate(newValue)]: the updated cell and the arguments of the
    ['change'] event it emits. *)
Definition receivedUpdate (newValue : Js.Value) (c : OscValue)
  : OscValue * (Js.Value * Js.Value) :=
  let oldValue := value c in
  let d :=
    match oldValue, newValue with
    | Js.Number o, Js.Number n => PrimFloat.add (delta c) (PrimFloat.abs (PrimFloat.sub n o))
    | _, _ => delta c
    end in
  ({| value := newValue; delta := d |}, (oldValue, newValue)).

(** [get()] and [getDelta()] *)
Definition get (c : OscValue) : Js.Value := value c.
Definition getDelta (c : OscValue) : float := delta c.

End Cell.

(** ** Messages, collaborators and effects *)

(** An OSC argument with [metadata: true]: [{type, value}]. *)
Record OscArg : Type := mkOscArg {
  arg_type : string;
  arg_value : Js.Value
}.

(** A parsed OSC message. *)
Record OscMessage : Type := mkOscMessage {
  address : string;
  args : option (list OscArg)
}.

(** The sender of a datagram ([RemoteInfo] of [dgram]). *)
Record RemoteInfo : Type := mkRemoteInfo {
  rinfo_address : string;
  rinfo_port : Z
}.

(** A datagram as the socket sees it: the raw bytes, the sender, and what
    the codec makes of the bytes ([None] when they are not a valid OSC
    message). The codec is a collaborator, so its verdict is an input. *)
Record Datagram : Type := mkDatagram {
  dg_bytes : list byte;
  dg_from : RemoteInfo;
  dg_parsed : option OscMessage
}.

(** A node of the bulk answer ([OSCMethodDescription]): [full_path] and the
    values of [arguments], each optional. *)
Record Node : Type := mkNode {
  full_path : option string;
  arguments : option (list Js.Value)
}.

(** What [oscQuery.start()] resolves to. *)
Record HostInfo : Type := mkHostInfo {
  oscPort : Z
}.

(** The answers of the injected services at the moment a handler runs; the
    services are not part of the class, so they are inputs of every step:
    [myAddresses.has], [configMap.get('osc.proxy')] and
    [vrchatOscqueryService.getOscAddress()]. *)
Record Services : Type := mkServices {
  myAddresses : gset string;
  osc_proxy : option string;
  getOscAddress : option (string * Z)
}.

(** The lines the class writes to its logger. *)
Inductive LogMsg : Type :=
| LogReceivedCount (n : Z)
| LogError (e : Js.Error)
| LogSelectedPort (p : Z)
| LogStartingOscQuery
| LogOscQueryStarted (p : Z)
| LogStartingOsc
| LogOpen
| LogWaitingFirst
| LogProbablyConnected
| LogAvatarChange
| LogBulkError (e : Js.Error).

(** Everything the class does to the outside world; [Uncaught] is an
    exception that leaves a listener. *)
Inductive Effect : Type :=
| Log (m : LogMsg)
| EmitAdd (key : string) (cell : OscValue)
| EmitClear
| EmitChange (key : string) (oldValue newValue : Js.Value)
| GetPort (start : Z)
| QueryAddMethod (q : nat) (path : string)
| QueryStart (q : nat) (httpPort : Z)
| QueryStop (q : nat)
| SocketOpen (s : nat) (localPort : Z)
| SocketClose (s : nat)
| SocketSend (s : nat) (m : OscMessage) (host : string) (hostPort : Z)
| UdpClientSend (msg : list byte) (toPort : float) (toAddress : string)
| GetBulk
| Uncaught (e : Js.Error).

(** The effects that touch the parameter store's observers. *)
Definition is_store_effect (e : Effect) : bool :=
  match e with
  | EmitAdd _ _ | EmitClear | EmitChange _ _ _ => true
  | _ => false
  end.

(** ** The state of the class and of the event loop *)

(** The fields of [OscConnection]. *)
Record OscConnection : Type := mkOscConnection {
  _entries : gmap string OscValue;
  recentlyRcvdOscCmds : Z;
  lastReceiveTime : Z;
  oscQuery : option nat;
  oscSocket : option nat;
  socketopen : bool;
  retryTimeout : option nat;
  lastPacket : Z;
  port : Z;
  waitingForBulk : bool;
  updateBulkAttempt : option nat
}.

(** What a pending [setTimeout] does when it fires. *)
Inductive TimerAction : Type :=
| RetryOpenSocket
| BulkFetchTimeout (fetch : nat)
| BulkBackoff (attempt : nat).

Record Timer : Type := mkTimer {
  delay : Z;
  action : TimerAction
}.

(** An [await] the class is suspended at, with the locals its
    continuation needs. *)
Inductive Await : Type :=
| AwaitPort
| AwaitOscQueryStart (q : nat) (localPort : Z)
| AwaitBulk (attempt : nat).

#[global] Instance TimerAction_eq_dec : EqDecision TimerAction.
Proof. solve_decision. Defined.

#[global] Instance Await_eq_dec : EqDecision Await.
Proof. solve_decision. Defined.

(** The class instance together with the event loop: pending timers, pending
    awaits, the [receivedOne] closure variable of each socket, and the
    allocator of object identities. *)
Record World : Type := mkWorld {
  this : OscConnection;
  timers : gmap nat Timer;
  awaits : gmap nat Await;
  receivedOne : gmap nat bool;
  nextId : nat
}.

Module Upd.

Definition on_entries (f : gmap string OscValue -> gmap string OscValue) (c : OscConnection) :=
  mkOscConnection (f (_entries c)) (recentlyRcvdOscCmds c) (lastReceiveTime c)
    (oscQuery c) (oscSocket c) (socketopen c) (retryTimeout c) (lastPacket c)
    (port c) (waitingForBulk c) (updateBulkAttempt c).

Definition set_recentlyRcvdOscCmds (v : Z) (c : OscConnection) :=
  mkOscConnection (_entries c) v (lastReceiveTime c)
    (oscQuery c) (oscSocket c) (socketopen c) (retryTimeout c) (lastPacket c)
    (port c) (waitingForBulk c) (updateBulkAttempt c).

Definition set_lastReceiveTime (v : Z) (c : OscConnection) :=
  mkOscConnection (_entries c) (recentlyRcvdOscCmds c) v
    (oscQuery c) (oscSocket c) (socketopen c) (retryTimeout c) (lastPacket c)
    (port c) (waitingForBulk c) (updateBulkAttempt c).

Definition set_oscQuery (v : option nat) (c : OscConnection) :=
  mkOscConnection (_entries c) (recentlyRcvdOscCmds c) (lastReceiveTime c)
    v (oscSocket c) (socketopen c) (retryTimeout c) (lastPacket c)
    (port c) (waitingForBulk c) (updateBulkAttempt c).

Definition set_oscSocket (v : option nat) (c : OscConnection) :=
  mkOscConnection (_entries c) (recentlyRcvdOscCmds c) (lastReceiveTime c)
    (oscQuery c) v (socketopen c) (retryTimeout c) (lastPacket c)
    (port c) (waitingForBulk c) (updateBulkAttempt c).

Definition set_socketopen (v : bool) (c : OscConnection) :=
  mkOscConnection (_entries c) (recentlyRcvdOscCmds c) (lastReceiveTime c)
    (oscQuery c) (oscSocket c) v (retryTimeout c) (lastPacket c)
    (port c) (waitingForBulk c) (updateBulkAttempt c).

Definition set_retryTimeout (v : option nat) (c : OscConnection) :=
  mkOscConnection (_entries c) (recentlyRcvdOscCmds c) (lastReceiveTime c)
    (oscQuery c) (oscSocket c) (socketopen c) v (lastPacket c)
    (port c) (waitingForBulk c) (updateBulkAttempt c).

Definition set_lastPacket (v : Z) (c : OscConnection) :=
  mkOscConnection (_entries c) (recentlyRcvdOscCmds c) (lastReceiveTime c)
    (oscQuery c) (oscSocket c) (socketopen c) (retryTimeout c) v
    (port c) (waitingForBulk c) (updateBulkAttempt c).

Definition set_port (v : Z) (c : OscConnection) :=
  mkOscConnection (_entries c) (recentlyRcvdOscCmds c) (lastReceiveTime c)
    (oscQuery c) (oscSocket c) (socketopen c) (retryTimeout c)
    (lastPacket c) v (waitingForBulk c) (updateBulkAttempt c).

Definition set_waitingForBulk (v : bool) (c : OscConnection) :=
  mkOscConnection (_entries c) (recentlyRcvdOscCmds c) (lastReceiveTime c)
    (oscQuery c) (oscSocket c) (socketopen c) (retryTimeout c)
    (lastPacket c) (port c) v (updateBulkAttempt c).

Definition set_updateBulkAttempt (v : option nat) (c : OscConnection) :=
  mkOscConnection (_entries c) (recentlyRcvdOscCmds c) (lastReceiveTime c)
    (oscQuery c) (oscSocket c) (socketopen c) (retryTimeout c)
    (lastPacket c) (port c) (waitingForBulk c) v.

Definition on_this (f : OscConnection -> OscConnection) (w : World) :=
  mkWorld (f (this w)) (timers w) (awaits w) (receivedOne w) (nextId w).

Definition on_timers (f : gmap nat Timer -> gmap nat Timer) (w : World) :=
  mkWorld (this w) (f (timers w)) (awaits w) (receivedOne w) (nextId w).

Definition on_awaits (f : gmap nat Await -> gmap nat Await) (w : World) :=
  mkWorld (this w) (timers w) (f (awaits w)) (receivedOne w) (nextId w).

Definition on_receivedOne (f : gmap nat bool -> gmap nat bool) (w : World) :=
  mkWorld (this w) (timers w) (awaits w) (f (receivedOne w)) (nextId w).

Definition set_nextId (v : nat) (w : World) :=
  mkWorld (this w) (timers w) (awaits w) (receivedOne w) v.

End Upd.

(** ** The monad the methods run in *)

Definition M (A : Type) : Type := World -> A * World * list Effect.

Definition ret {A} (a : A) : M A := fun w => (a, w, []).

Definition bind {A B} (m : M A) (k : A -> M B) : M B :=
  fun w =>
    let '(a, w1, out1) := m w in
    let '(b, w2, out2) := k a w1 in
    (b, w2, (out1 ++ out2)%list).

Declare Scope js_scope.
Delimit Scope js_scope with js.
Notation "'let*' x := m 'in' k" := (bind m (fun x => k))
  (at level 10, x name, m at level 100, k at level 200) : js_scope.
Notation "m ;; k" := (bind m (fun _ => k))
  (at level 100, k at level 200, right associativity) : js_scope.
Local Open Scope js_scope.

Definition get : M World := fun w => (w, w, []).
Definition modify (f : World -> World) : M unit := fun w => (tt, f w, []).
Definition emit (e : Effect) : M unit := fun w => (tt, w, [e]).

(** Read and write the fields of [this]. *)
Definition read {A} (field : OscConnection -> A) : M A :=
  fun w => (field (this w), w, []).
Definition assign (setter : OscConnection -> OscConnection) : M unit :=
  modify (Upd.on_this setter).

(** [for (const x of xs) body(x)] *)
Fixpoint for_of {A} (xs : list A) (body : A -> M unit) : M unit :=
  match xs with
  | [] => ret tt
  | x :: rest => body x ;; for_of rest body
  end.

(** The same loop around a body that may throw: the result of the body is
    the exception it throws, if any, and the first one ends the loop. *)
Fixpoint for_of_throwing {A} (xs : list A) (body : A -> M (option Js.Error))
  : M (option Js.Error) :=
  match xs with
  | [] => ret None
  | x :: rest =>
      let* thrown := body x in
      match thrown with
      | Some e => ret (Some e)
      | None => for_of_throwing rest body
      end
  end.

(** A listener called by an event emitter: an exception it throws is
    caught by nothing in the class. *)
Definition listener (handler : M (option Js.Error)) : M unit :=
  let* thrown := handler in
  match thrown with
  | Some e => emit (Uncaught e)
  | None => ret tt
  end.

(** The world and the effects a computation leaves behind. *)
Definition exec {A} (m : M A) (w : World) : World := snd (fst (m w)).
Definition output {A} (m : M A) (w : World) : list Effect := snd (m w).

(** A new object identity. *)
Definition alloc : M nat :=
  fun w => (nextId w, Upd.set_nextId (S (nextId w)) w, []).

(** [setTimeout(action, delay)]: a new pending timer; its handle. *)
Definition setTimeout (a : TimerAction) (ms : Z) : M nat :=
  let* id := alloc in
  modify (Upd.on_timers (insert id (mkTimer ms a))) ;;
  ret id.

(** [clearTimeout(handle)]: no effect on [undefined] or on a timer that
    already fired. *)
Definition clearTimeout (handle : option nat) : M unit :=
  match handle with
  | Some id => modify (Upd.on_timers (delete id))
  | None => ret tt
  end.

(** Suspend at an [await]: the continuation is recorded under a new
    identity and resumed when the promise settles. *)
Definition suspend (a : Await) : M unit :=
  let* id := alloc in
  modify (Upd.on_awaits (insert id a)).

(** ** The methods of [OscConnection] *)

Definition log (m : LogMsg) : M unit := emit (Log m).

(** [parsePort(inputObj, defAddress, defPort)] *)
Definition parsePort (inputObj : option string) (defAddress : string) (defPort : float)
  : string * float :=
  let input := default "" inputObj in
  let '(outAddress, input) :=
    if Js.includes ":" input
    then let split := Js.split ":" input in (nth 0 split "", nth 1 split "")
    else (defAddress, input) in
  let parsedPort := Js.parseInt input in
  let outPort :=
    if negb (Js.isNaN parsedPort) && (0 <? parsedPort)%float
    then parsedPort else defPort in
  (outAddress, outPort).

(** [error(e)] *)
Definition error (e : Js.Error) : M unit := log (LogError e).

(** [clearValues()] *)
Definition clearValues : M unit :=
  assign (Upd.on_entries (fun _ => ∅)) ;;
  emit EmitClear.

(** [receivedParamValue(param, rawValue, onlyUseIfNew)]. The cell is an
    object held by the map, so updating it in place is an insert of the
    updated cell under the same key. *)
Definition receivedParamValue (param : option string) (rawValue : Js.Value)
    (onlyUseIfNew : bool) : M unit :=
  match param with
  | None => ret tt
  | Some param =>
      if Js.is_undefined rawValue then ret tt
      else
        let* entries := read _entries in
        match entries !! param with
        | None =>
            let '(cell, (old, new)) := Cell.receivedUpdate rawValue Cell.fresh in
            assign (Upd.on_entries (insert param cell)) ;;
            emit (EmitChange param old new) ;;
            emit (EmitAdd param cell)
        | Some cell0 =>
            if onlyUseIfNew then ret tt
            else
              let '(cell, (old, new)) := Cell.receivedUpdate rawValue cell0 in
              assign (Upd.on_entries (insert param cell)) ;;
              emit (EmitChange param old new)
        end
  end.

Definition parameters_prefix : string := "/avatar/parameters/".

(** [parseParamFromPath(path)] *)
Definition parseParamFromPath (path : string) : option string :=
  if Js.startsWith parameters_prefix path
  then Some (Js.substring_from (String.length parameters_prefix) path)
  else None.

(** [isStillValid()] of the attempt [myAttempt]. *)
Definition isStillValid (myAttempt : nat) : M bool :=
  let* current := read updateBulkAttempt in
  ret (bool_decide (current = Some myAttempt)).

(** [_updateBulk] up to its [await]: the bulk request and the ten second
    timer race for the same promise. *)
Definition _updateBulk_begin (myAttempt : nat) : M unit :=
  emit GetBulk ;;
  let* fetch := alloc in
  modify (Upd.on_awaits (insert fetch (AwaitBulk myAttempt))) ;;
  let* _ := setTimeout (BulkFetchTimeout fetch) 10000 in
  ret tt.

(** [updateBulk()] up to its first [await]. *)
Definition updateBulk : M unit :=
  assign (Upd.set_waitingForBulk true) ;;
  let* myAttempt := alloc in
  assign (Upd.set_updateBulkAttempt (Some myAttempt)) ;;
  _updateBulk_begin myAttempt.

(** The end of [updateBulk]'s loop. *)
Definition updateBulk_done : M unit :=
  assign (Upd.set_waitingForBulk false).

(** The [catch] branch of [updateBulk] up to its [await]. *)
Definition updateBulk_catch (myAttempt : nat) (e : Js.Error) : M unit :=
  log (LogBulkError e) ;;
  let* _ := setTimeout (BulkBackoff myAttempt) 100 in
  ret tt.

(** The [catch] branch after the 100 ms wait. *)
Definition updateBulk_retry (myAttempt : nat) : M unit :=
  let* valid := isStillValid myAttempt in
  if valid then _updateBulk_begin myAttempt else updateBulk_done.

(** [node.arguments?.[0]?.value] and [oscMsg.args?.[0]?.value] *)
Definition first_value (arguments : option (list Js.Value)) : Js.Value :=
  match arguments with
  | Some (v :: _) => v
  | _ => Js.Undefined
  end.

(** [_updateBulk] after its [await], followed by the rest of the loop body
    of [updateBulk]. *)
Definition _updateBulk_resume (myAttempt : nat)
    (settled : Js.Settled (option (list Node))) : M unit :=
  match settled with
  | Js.Rejected e => updateBulk_catch myAttempt e
  | Js.Resolved None => updateBulk_catch myAttempt "VRChat OscQuery not discovered yet"
  | Js.Resolved (Some nodes) =>
      let* valid := isStillValid myAttempt in
      (if valid
       then for_of nodes (fun node =>
              let param := parseParamFromPath (default "" (full_path node)) in
              receivedParamValue param (first_value (arguments node)) true)
       else ret tt) ;;
      updateBulk_done
  end.

(** [openSocket()] and [openSocketUnsafe()] up to the first [await]. *)
Definition openSocket : M unit :=
  emit (GetPort 33776) ;;
  suspend AwaitPort.

(** [openSocketUnsafe] once the port lookup settled, up to
    [await oscQuery.start()]; a rejection lands in [openSocket]'s [catch]. *)
Definition openSocketUnsafe_port (settled : Js.Settled Z) : M unit :=
  match settled with
  | Js.Rejected e => error e
  | Js.Resolved port =>
      assign (Upd.set_port port) ;;
      log (LogSelectedPort port) ;;
      log LogStartingOscQuery ;;
      let* q := alloc in
      assign (Upd.set_oscQuery (Some q)) ;;
      emit (QueryAddMethod q "/avatar/change") ;;
      emit (QueryStart q port) ;;
      suspend (AwaitOscQueryStart q port)
  end.

(** [openSocketUnsafe] once [oscQuery.start()] settled, to its end;
    [openThrows] is the exception of [oscSocket.open()], if it throws. *)
Definition openSocketUnsafe_started (port : Z) (settled : Js.Settled HostInfo)
    (openThrows : option Js.Error) : M unit :=
  match settled with
  | Js.Rejected e => error e
  | Js.Resolved hostInfo =>
      log (LogOscQueryStarted (oscPort hostInfo)) ;;
      log LogStartingOsc ;;
      let* s := alloc in
      assign (Upd.set_oscSocket (Some s)) ;;
      modify (Upd.on_receivedOne (insert s false)) ;;
      emit (SocketOpen s port) ;;
      match openThrows with
      | Some e => error e
      | None => ret tt
      end
  end.

(** [delayRetry()] *)
Definition delayRetry : M unit :=
  assign (Upd.set_socketopen false) ;;
  assign (Upd.set_updateBulkAttempt None) ;;
  assign (Upd.set_waitingForBulk false) ;;
  clearValues ;;
  (let* sock := read oscSocket in
   match sock with
   | Some s => emit (SocketClose s) ;; assign (Upd.set_oscSocket None)
   | None => ret tt
   end) ;;
  (let* query := read oscQuery in
   match query with
   | Some q => emit (QueryStop q) ;; assign (Upd.set_oscQuery None)
   | None => ret tt
   end) ;;
  (let* handle := read retryTimeout in clearTimeout handle) ;;
  let* handle := setTimeout RetryOpenSocket 1000 in
  assign (Upd.set_retryTimeout (Some handle)).

(** [send(paramName, value)] *)
Definition send (env : Services) (paramName : string) (v : float) : M unit :=
  let* sock := read oscSocket in
  let* open := read socketopen in
  match sock with
  | Some s =>
      if negb open then ret tt
      else match getOscAddress env with
           | None => ret tt
           | Some sendAddr =>
               emit (SocketSend s
                       (mkOscMessage (parameters_prefix +:+ paramName)
                          (Some [mkOscArg "f" (Js.Number v)]))
                       (fst sendAddr) (snd sendAddr))
           end
  | None => ret tt
  end.

(** [clearDeltas()] *)
Definition clearDeltas : M unit :=
  assign (Upd.on_entries (fmap Cell.clearDelta)).

(** [entries()] *)
Definition entries (w : World) : gmap string OscValue := _entries (this w).

(** ** The socket's event handlers *)

(** ['ready'] *)
Definition on_ready : M unit :=
  assign (Upd.set_socketopen true) ;;
  assign (Upd.set_recentlyRcvdOscCmds 0) ;;
  assign (Upd.set_lastPacket 0) ;;
  log LogOpen ;;
  log LogWaitingFirst.

(** ['error']: the handler has an empty body. *)
Definition on_error (e : Js.Error) : M unit := ret tt.

(** [this.udpClient.send(msg, port, address)]. The class wraps no
    [try] around it, and node's [dgram] socket checks the port before it
    sends anything: a port that is not an integer from 1 to 65535 makes
    [send] throw [ERR_SOCKET_BAD_PORT]. The result is the exception thrown,
    if one is. *)
Definition valid_port (port : float) : bool :=
  Js.is_integer port && (0 <? port)%float && (port <=? 65535)%float.

Definition ERR_SOCKET_BAD_PORT : Js.Error := "ERR_SOCKET_BAD_PORT".

Definition udpClient_send (msg : list byte) (port : float) (address : string)
  : M (option Js.Error) :=
  if valid_port port
  then emit (UdpClientSend msg port address) ;; ret None
  else ret (Some ERR_SOCKET_BAD_PORT).

(** ['data']: the handler binds the buffer only; sender and parse result
    are not among its arguments. An exception of [udpClient.send] ends the
    loop and leaves the handler. *)
Definition on_data (env : Services) (msg : list byte) : M (option Js.Error) :=
  match osc_proxy env with
  | Some proxyPort =>
      if bool_decide (proxyPort = "") then ret None
      else for_of_throwing (Js.split "," proxyPort) (fun p =>
             let '(address, port) := parsePort (Some (Js.trim p)) "127.0.0.1" 0 in
             if (0 <? port)%float then udpClient_send msg port address else ret None)
  | None => ret None
  end.

(** ['message'] of the socket [s]; [now1] and [now2] are the two readings
    of [Date.now()]. *)
Definition on_message (env : Services) (s : nat) (oscMsg : OscMessage)
    (rinfo : RemoteInfo) (now1 now2 : Z) : M unit :=
  let from := rinfo_address rinfo in
  if negb (bool_decide (from ∈ myAddresses env)) then ret tt
  else
    (let* w := get in
     if negb (default false (receivedOne w !! s))
     then modify (Upd.on_receivedOne (insert s true)) ;;
          log LogProbablyConnected ;;
          updateBulk
     else ret tt) ;;
    assign (Upd.set_lastPacket now1) ;;
    (let* n := read recentlyRcvdOscCmds in
     assign (Upd.set_recentlyRcvdOscCmds (n + 1))) ;;
    assign (Upd.set_lastReceiveTime now2) ;;
    let path := address oscMsg in
    if bool_decide (path = "") then ret tt
    else if bool_decide (path = "/avatar/change")
    then log LogAvatarChange ;;
         clearValues ;;
         updateBulk
    else
      let param := parseParamFromPath path in
      receivedParamValue param (first_value (map arg_value <$> args oscMsg)) false.

(** The body of the constructor's [setInterval]. *)
Definition on_interval : M unit :=
  let* open := read socketopen in
  if negb open then ret tt
  else
    let* n := read recentlyRcvdOscCmds in
    if 0 <? n
    then log (LogReceivedCount n) ;; assign (Upd.set_recentlyRcvdOscCmds 0)
    else ret tt.

(** ** The event loop *)

(** What the event loop can deliver to the instance: a settled promise, a
    fired timer, a socket event, or a call of a public method. *)
Inductive Event : Type :=
| PortSettled (id : nat) (settled : Js.Settled Z)
| OscQueryStartSettled (id : nat) (settled : Js.Settled HostInfo)
    (openThrows : option Js.Error)
| BulkSettled (id : nat) (settled : Js.Settled (option (list Node)))
| TimerFired (id : nat)
| IntervalFired
| SocketReady (s : nat)
| SocketError (s : nat) (e : Js.Error)
| SocketData (s : nat) (d : Datagram)
| SocketMessage (s : nat) (oscMsg : OscMessage) (rinfo : RemoteInfo) (now1 now2 : Z)
| CallDelayRetry
| CallSend (paramName : string) (v : float)
| CallClearDeltas.

(** Settle the race of one bulk request: only the first settlement of a
    pending request resumes [_updateBulk]. *)
Definition settle_bulk (fetch : nat) (settled : Js.Settled (option (list Node)))
  : M unit :=
  let* w := get in
  match awaits w !! fetch with
  | Some (AwaitBulk myAttempt) =>
      modify (Upd.on_awaits (delete fetch)) ;;
      _updateBulk_resume myAttempt settled
  | _ => ret tt
  end.

(** A timer fires: it leaves the pending set and its callback runs. *)
Definition fire_timer (id : nat) : M unit :=
  let* w := get in
  match timers w !! id with
  | Some t =>
      modify (Upd.on_timers (delete id)) ;;
      match action t with
      | RetryOpenSocket => openSocket
      | BulkFetchTimeout fetch => settle_bulk fetch (Js.Rejected "Timed out")
      | BulkBackoff myAttempt => updateBulk_retry myAttempt
      end
  | None => ret tt
  end.

(** Run a socket handler if the socket was created. *)
Definition on_socket (s : nat) (handler : M unit) : M unit :=
  let* w := get in
  match receivedOne w !! s with
  | Some _ => handler
  | None => ret tt
  end.

Definition step (env : Services) (ev : Event) : M unit :=
  match ev with
  | PortSettled id settled =>
      let* w := get in
      match awaits w !! id with
      | Some AwaitPort =>
          modify (Upd.on_awaits (delete id)) ;;
          openSocketUnsafe_port settled
      | _ => ret tt
      end
  | OscQueryStartSettled id settled openThrows =>
      let* w := get in
      match awaits w !! id with
      | Some (AwaitOscQueryStart q port) =>
          modify (Upd.on_awaits (delete id)) ;;
          openSocketUnsafe_started port settled openThrows
      | _ => ret tt
      end
  | BulkSettled id settled => settle_bulk id settled
  | TimerFired id => fire_timer id
  | IntervalFired => on_interval
  | SocketReady s => on_socket s on_ready
  | SocketError s e => on_socket s (on_error e)
  | SocketData s d => on_socket s (listener (on_data env (dg_bytes d)))
  | SocketMessage s oscMsg rinfo now1 now2 =>
      on_socket s (on_message env s oscMsg rinfo now1 now2)
  | CallDelayRetry => delayRetry
  | CallSend paramName v => send env paramName v
  | CallClearDeltas => clearDeltas
  end.

(** A run of the event loop. *)
Definition run (evs : list (Services * Event)) : M unit :=
  for_of evs (fun '(env, ev) => step env ev).

(** The instance before its constructor ran. *)
Definition blank : World :=
  mkWorld (mkOscConnection ∅ 0 0 None None false None 0 0 false None) ∅ ∅ ∅ 0%nat.

(** The constructor: [openSocket()]; its [setInterval] is the source of the
    [IntervalFired] events. *)
Definition constructor : M unit := openSocket.

Definition initial : World := exec constructor blank.

(** * Specification vocabulary *)

(** ** Delta accumulation of a cell *)

Module DeltaSpec.

(** What can happen to one cell. *)
Inductive CellOp : Type :=
| OpUpdate (v : Js.Value)
| OpClearDelta.

Definition apply_op (c : OscValue) (op : CellOp) : OscValue :=
  match op with
  | OpUpdate v => fst (Cell.receivedUpdate v c)
  | OpClearDelta => Cell.clearDelta c
  end.

Definition apply_ops (ops : list CellOp) (c : OscValue) : OscValue :=
  fold_left apply_op ops c.

(** The statement's side, written from its words. The absolute
    difference of one step, counted only when both sides are numbers. *)
Definition numeric_step (prev next : Js.Value) : list float :=
  match prev, next with
  | Js.Number a, Js.Number b => [PrimFloat.abs (PrimFloat.sub b a)]
  | _, _ => []
  end.

(** The counted steps along a sequence of values that follows [prev]. *)
Fixpoint numeric_steps (prev : Js.Value) (vs : list Js.Value) : list float :=
  match vs with
  | [] => []
  | v :: rest => (numeric_step prev v ++ numeric_steps v rest)%list
  end.

(** The sum of the steps, added in order onto [base]. *)
Definition sum_onto (base : float) (steps : list float) : float :=
  fold_left PrimFloat.add steps base.

(** The window since the last [clearDelta]: the value the cell held when
    the window opened, the delta it opened with, and the values received
    in it. *)
Fixpoint window (start : Js.Value) (base : float) (since : list Js.Value)
    (ops : list CellOp) : Js.Value * float * list Js.Value :=
  match ops with
  | [] => (start, base, since)
  | OpUpdate v :: rest => window start base (since ++ [v])%list rest
  | OpClearDelta :: rest => window (default start (last since)) 0%float [] rest
  end.

(** The sum of the absolute differences between consecutive numeric
    values since the last [clearDelta]. *)
Definition accumulated (c0 : OscValue) (ops : list CellOp) : float :=
  let '(start, base, since) := window (value c0) (delta c0) [] ops in
  sum_onto base (numeric_steps start since).

(** What can happen to the store between two reads of a cell. *)
Inductive StoreOp : Type :=
| Received (param : string) (rawValue : Js.Value)
| ClearDeltas.

Definition store_op (op : StoreOp) : M unit :=
  match op with
  | Received param rawValue => receivedParamValue (Some param) rawValue false
  | ClearDeltas => clearDeltas
  end.

(** The operations of a store history that reach the cell [k]. *)
Fixpoint project (k : string) (ops : list StoreOp) : list CellOp :=
  match ops with
  | [] => []
  | Received param rawValue :: rest =>
      if bool_decide (param = k) && negb (Js.is_undefined rawValue)
      then OpUpdate rawValue :: project k rest
      else project k rest
  | ClearDeltas :: rest => OpClearDelta :: project k rest
  end.

(** Whether a store history updates the cell [k] at all. *)
Definition updates (k : string) (ops : list StoreOp) : bool :=
  existsb (fun op => match op with OpUpdate _ => true | OpClearDelta => false end)
    (project k ops).

End DeltaSpec.

(** ** Retry timers, stale attempts, proxy targets *)

(** The pending timers that will retry [openSocket]. *)
Definition retry_timers (w : World) : gmap nat Timer :=
  filter (fun it => action (snd it) = RetryOpenSocket) (timers w).

(** A retry of the connect attempt is scheduled. *)
Definition retry_scheduled (w : World) : Prop :=
  exists id t, timers w !! id = Some t /\ action t = RetryOpenSocket.

(** A call of [delayRetry()]. The class never calls it itself; it is a
    public method for the users of the class. *)
Definition is_delayRetry (ev : Event) : bool :=
  match ev with
  | CallDelayRetry => true
  | _ => false
  end.

(** The error [openSocketUnsafe] raises when the event resumes it, if it
    raises: the port lookup or [oscQuery.start()] rejects, or
    [oscSocket.open()] throws. *)
Definition connect_failure (w : World) (ev : Event) : option Js.Error :=
  match ev with
  | PortSettled id (Js.Rejected e) =>
      match awaits w !! id with
      | Some AwaitPort => Some e
      | _ => None
      end
  | OscQueryStartSettled id settled openThrows =>
      match awaits w !! id with
      | Some (AwaitOscQueryStart _ _) =>
          match settled with
          | Js.Rejected e => Some e
          | Js.Resolved _ => openThrows
          end
      | _ => None
      end
  | _ => None
  end.

(** The bulk attempt whose suspended code the event would resume: the
    bulk promise settling, its ten second timer firing first, or the
    100 ms wait of its [catch] branch ending. *)
Definition resumed_attempt (w : World) (ev : Event) : option nat :=
  match ev with
  | BulkSettled id _ =>
      match awaits w !! id with
      | Some (AwaitBulk a) => Some a
      | _ => None
      end
  | TimerFired id =>
      match timers w !! id with
      | Some t =>
          match action t with
          | BulkBackoff a => Some a
          | BulkFetchTimeout fetch =>
              match awaits w !! fetch with
              | Some (AwaitBulk a) => Some a
              | _ => None
              end
          | RetryOpenSocket => None
          end
      | None => None
      end
  | _ => None
  end.

(** The proxy addresses a configuration string names: every
    comma-separated entry whose port parses to a positive number. *)
Definition proxy_targets (proxyPort : string) : list (string * float) :=
  filter (fun target => (0 <? snd target)%float = true)
    (map (fun p => parsePort (Some (Js.trim p)) "127.0.0.1" 0)
       (Js.split "," proxyPort)).

(** Forwarding to a list of targets: one datagram each, in order, until a
    port is refused. *)
Fixpoint forwarding (msg : list byte) (targets : list (string * float)) : list Effect :=
  match targets with
  | [] => []
  | (address, port) :: rest =>
      if valid_port port
      then UdpClientSend msg port address :: forwarding msg rest
      else [Uncaught ERR_SOCKET_BAD_PORT]
  end.

(** The store-observer effects among an output. *)
Definition store_effects (out : list Effect) : list Effect :=
  filter (fun e => is_store_effect e = true) out.

(** ** Hoare triples over the monad *)

Definition hoare {A} (P : World -> Prop) (m : M A) (Q : A -> World -> Prop) : Prop :=
  forall w, P w -> Q (fst (fst (m w))) (exec m w).

(** [m] keeps [P]. *)
Definition keeps {A} (P : World -> Prop) (m : M A) : Prop :=
  hoare P m (fun _ => P).

(** ** Scenarios *)

Module Scenario.

Definition localhost : string := "127.0.0.1".

(** The game is on this machine, no proxy, peer known. *)
Definition env : Services :=
  mkServices {[ localhost ]} None (Some (localhost, 9000)).


(** As [env], before discovery found the peer. *)
Definition env_no_peer : Services :=
  mkServices {[ localhost ]} None None.

Definition game : RemoteInfo := mkRemoteInfo localhost 9000.
Definition stranger : RemoteInfo := mkRemoteInfo "203.0.113.7" 4242.

Definition float_msg (path : string) (f : float) : OscMessage :=
  mkOscMessage path (Some [mkOscArg "f" (Js.Number f)]).

(** The instance after a successful start: port found (promise 0), OSCQuery
    server 1 started (promise 2), socket 3 ready. *)
Definition boot : list (Services * Event) :=
  [ (env, PortSettled 0 (Js.Resolved 33776));
    (env, OscQueryStartSettled 2 (Js.Resolved (mkHostInfo 33776)) None);
    (env, SocketReady 3) ].

Definition opened : World := exec (run boot) initial.

(** The first message from the game starts bulk attempt 4 (request 5). *)
Definition first_message : list (Services * Event) :=
  [ (env, SocketMessage 3 (float_msg "/avatar/parameters/foo" 1) game 10 10) ].

Definition live : World := exec (run first_message) opened.

Definition bulk_answer : Js.Settled (option (list Node)) :=
  Js.Resolved (Some [ mkNode (Some "/avatar/parameters/foo") (Some [Js.Number 2]);
                      mkNode (Some "/avatar/parameters/bar") (Some [Js.Number 7]) ]).

(** After a [delayRetry] in [live] its retry timer (handle 7) fires. *)
Definition after_reset : list (Services * Event) :=
  [ (env, TimerFired 7) ].

(** The OSCQuery server fails to start. *)
Definition failed_start : list (Services * Event) :=
  [ (env, PortSettled 0 (Js.Resolved 33776));
    (env, OscQueryStartSettled 2 (Js.Rejected "EADDRINUSE") None) ].

(** A history of one store with two parameters. *)
Definition history : list DeltaSpec.StoreOp :=
  [ DeltaSpec.Received "a" (Js.Number 1);
    DeltaSpec.Received "b" (Js.Number 5);
    DeltaSpec.Received "a" (Js.Number 3);
    DeltaSpec.ClearDeltas;
    DeltaSpec.Received "a" (Js.Str "x");
    DeltaSpec.Received "a" (Js.Number 2.5);
    DeltaSpec.Received "b" (Js.Number 1);
    DeltaSpec.Received "a" (Js.Number 4) ].

(** The two updates of [Speed]. *)
Definition speed_updates : list (Services * Event) :=
  [ (env, SocketMessage 3 (float_msg "/avatar/parameters/Speed" 0.5) game 10 10);
    (env, SocketMessage 3 (float_msg "/avatar/parameters/Speed" 0.8) game 11 11) ].

End Scenario.

(** ** Invariants of the event loop *)

(** Every pending retry timer is the one [retryTimeout] holds. *)
Definition retry_handle_inv (w : World) : Prop :=
  forall id t,
    timers w !! id = Some t -> action t = RetryOpenSocket ->
    retryTimeout (this w) = Some id.

(** The attempt token [tok] was minted and is not the current one. *)
Definition superseded (tok : nat) (w : World) : Prop :=
  updateBulkAttempt (this w) <> Some tok /\ (tok < nextId w)%nat.

(** Timer handles are allocated before they are used: every pending timer
    and the handle in [retryTimeout] are older than the next identity. *)
Definition handles_allocated (w : World) : Prop :=
  (forall id, is_Some (timers w !! id) -> (id < nextId w)%nat)
  /\ (forall handle, retryTimeout (this w) = Some handle -> (handle < nextId w)%nat).

(** * Further vocabulary *)

(** ** Decimal port strings *)

(** The character of a decimal digit. *)
Definition digit_char (d : Z) : ascii := ascii_of_nat (48 + Z.to_nat d).

(** The string that writes the digits [ds], most significant first. *)
Fixpoint decimal (ds : list Z) : string :=
  match ds with
  | [] => EmptyString
  | d :: rest => String (digit_char d) (decimal rest)
  end.

(** [ds] is a non-empty run of decimal digits. *)
Definition is_decimal (ds : list Z) : Prop :=
  ds <> [] /\ Forall (fun d => 0 <= d < 10) ds.

(** ** Relations between the world before and after a computation *)

(** [m] relates every world to the world and the output it leaves. *)
Definition follows {A} (R : World -> World -> list Effect -> Prop) (m : M A) : Prop :=
  forall w, R w (exec m w) (output m w).

(** A relation that holds of doing nothing and composes along a run. *)
Class Stepwise (R : World -> World -> list Effect -> Prop) : Prop := {
  stepwise_stay : forall w out, R w w out;
  stepwise_trans : forall w1 w2 w3 out1 out2,
    R w1 w2 out1 -> R w2 w3 out2 -> R w1 w3 (out1 ++ out2)%list
}.

(** Without a store event in the output the store is as it was. *)
Definition silent_keeps_store (w w' : World) (out : list Effect) : Prop :=
  store_effects out = [] -> entries w' = entries w.

(** Every name that gained a cell was announced by an ['add'] event. *)
Definition additions_announced (w w' : World) (out : list Effect) : Prop :=
  forall k, entries w !! k = None -> is_Some (entries w' !! k) ->
            exists cell, EmitAdd k cell ∈ out.

(** No cell of the store holds [undefined]. *)
Definition no_undefined_stored (w : World) : Prop :=
  forall k c, entries w !! k = Some c -> value c <> Js.Undefined.

(** The event is not a call of [clearDeltas]. *)
Definition not_clearDeltas (ev : Event) : Prop :=
  match ev with CallClearDeltas => False | _ => True end.

(** ** Messages and bulk requests *)

(** The event is a parsed message of some socket. *)
Definition is_message (ev : Event) : Prop :=
  match ev with SocketMessage _ _ _ _ _ => True | _ => False end.

(** The message reaches its handler and passes the sender filter: its
    socket was created and its sender is trusted. *)
Definition accepted (w : World) (e : Services * Event) : bool :=
  match snd e with
  | SocketMessage s _ rinfo _ _ =>
      bool_decide (is_Some (receivedOne w !! s))
      && bool_decide (rinfo_address rinfo ∈ myAddresses (fst e))
  | _ => false
  end.

Fixpoint count_accepted (w : World) (evs : list (Services * Event)) : Z :=
  match evs with
  | [] => 0
  | e :: rest => (if accepted w e then 1 else 0) + count_accepted w rest
  end.

(** The number of bulk requests among an output. *)
Fixpoint bulk_requests (out : list Effect) : nat :=
  match out with
  | [] => 0%nat
  | GetBulk :: rest => S (bulk_requests rest)
  | _ :: rest => bulk_requests rest
  end.

(** The parameter-update message [send] builds for a name and a value. *)
Definition parameter_message (paramName : string) (v : float) : OscMessage :=
  mkOscMessage ("/avatar/parameters/" +:+ paramName) (Some [mkOscArg "f" (Js.Number v)]).

Module Scenario2.

(** Three messages for the open socket: one from a stranger, two from the
    game, the last one an avatar change. *)
Definition traffic : list (Services * Event) :=
  [ (Scenario.env, SocketMessage 3 (Scenario.float_msg "/avatar/parameters/a" 1)
                     Scenario.stranger 10 10);
    (Scenario.env, SocketMessage 3 (Scenario.float_msg "/avatar/parameters/a" 2)
                     Scenario.game 11 11);
    (Scenario.env, SocketMessage 3 (mkOscMessage "/avatar/change" None)
                     Scenario.game 12 12) ].

(** A trusted message outside the parameter namespace. *)
Definition tracking_msg : OscMessage :=
  Scenario.float_msg "/tracking/head" 1.

End Scenario2.

(** ** Lifecycle *)

(** The event is not the ['ready'] event of a socket. *)
Definition not_ready (ev : Event) : Prop :=
  match ev with SocketReady _ => False | _ => True end.

(** The events of a successful start that follows a [delayRetry] made when
    the next identity was [n]: the retry timer [n] fires, the port lookup
    [n+1] resolves, the OSCQuery server [n+2] starts (promise [n+3]), and
    the socket [n+4] reports ready. *)
Definition reconnect (env : Services) (n : nat) (port : Z) (hostInfo : HostInfo)
  : list (Services * Event) :=
  [ (env, TimerFired n);
    (env, PortSettled (S n) (Js.Resolved port));
    (env, OscQueryStartSettled (S (S (S n))) (Js.Resolved hostInfo) None);
    (env, SocketReady (S (S (S (S n))))) ].

(** ** Bulk answers *)

(** The value a bulk answer gives for the name [k]: the first defined first
    argument among the nodes whose path is the parameter [k]. *)
Fixpoint bulk_value (k : string) (nodes : list Node) : option Js.Value :=
  match nodes with
  | [] => None
  | node :: rest =>
      if bool_decide (parseParamFromPath (default "" (full_path node)) = Some k)
         && negb (Js.is_undefined (first_value (arguments node)))
      then Some (first_value (arguments node))
      else bulk_value k rest
  end.

(** The bulk request did not bring an answer: it was rejected (also by the
    ten second timeout) or resolved to [null]. *)
Definition fetch_failed (settled : Js.Settled (option (list Node))) : Prop :=
  match settled with
  | Js.Resolved (Some _) => False
  | _ => True
  end.

Module Scenario3.

(** A bulk answer: a value for [foo], two for [bar], one node with no
    arguments and one outside the parameter namespace. *)
Definition bulk_nodes : list Node :=
  [ mkNode (Some "/avatar/parameters/foo") (Some [Js.Number 2]);
    mkNode (Some "/avatar/parameters/baz") None;
    mkNode (Some "/avatar/parameters/bar") (Some [Js.Number 7]);
    mkNode (Some "/avatar/parameters/bar") (Some [Js.Number 8]);
    mkNode (Some "/tracking/head") (Some [Js.Number 1]);
    mkNode None (Some [Js.Number 1]) ].

(** In [Scenario.live] the avatar changes: attempt 4 (request 5) is
    superseded by attempt 7 (request 8). *)
Definition avatar_changed : World :=
  exec (step Scenario.env
          (SocketMessage 3 (mkOscMessage "/avatar/change" None) Scenario.game 20 20))
    Scenario.live.

End Scenario3.

(** * The first revision of the class *)

(** The source file also holds the first revision of [OscConnection]: a
    fixed local port, no discovery, no sender filter, no events. It is
    embedded by explicit state passing; its [OscValue] is [Cell] without
    the ['change'] event. *)
Module Legacy.

(** [configMap.get('osc.port')] and [configMap.get('osc.proxy')]. *)
Record Config : Type := mkConfig {
  osc_port : option string;
  osc_proxy : option string
}.

Inductive LogLine : Type :=
| OpeningServer (localPort : float)
| Open
| WaitingFirst
| Error (e : Js.Error)
| ProbablyConnected
| AvatarChange
| ReceivedCount (n : Z).

Inductive Effect : Type :=
| Log (m : LogLine)
| SocketOpen (s : nat) (localPort : float)
| SocketClose (s : nat)
| SocketSend (s : nat) (m : OscMessage)
| UdpClientSend (msg : list byte) (toPort : float) (toAddress : string)
| Uncaught (e : Js.Error).

(** The fields of the class, the pending retry timers (handle and delay),
    the [receivedOne] variable of each socket, and the allocator. *)
Record State : Type := mkState {
  _entries : gmap string OscValue;
  recentlyRcvdOscCmds : Z;
  lastReceiveTime : Z;
  socket : option nat;
  socketopen : bool;
  retryTimeout : option nat;
  timers : gmap nat Z;
  receivedOne : gmap nat bool;
  nextId : nat
}.

(** The local port of [openSocket]: [parseInt(get('osc.port') || '')], and
    9001 when that is [NaN] or 0. *)
Definition listen_port (cfg : Config) : float :=
  let oscPort := Js.parseInt (default "" (osc_port cfg)) in
  if Js.isNaN oscPort || (oscPort =? 0)%float then 9001%float else oscPort.

(** [openSocket()] *)
Definition openSocket (cfg : Config) (st : State) : State * list Effect :=
  let oscPort := listen_port cfg in
  let s := nextId st in
  (mkState (_entries st) (recentlyRcvdOscCmds st) (lastReceiveTime st) (Some s)
     (socketopen st) (retryTimeout st) (timers st) (<[s := false]> (receivedOne st))
     (S (nextId st)),
   [Log (OpeningServer oscPort); SocketOpen s oscPort]).

(** [delayRetry()] *)
Definition delayRetry (st : State) : State * list Effect :=
  let closing := match socket st with Some s => [SocketClose s] | None => [] end in
  let cleared := match retryTimeout st with
                 | Some handle => delete handle (timers st)
                 | None => timers st
                 end in
  let handle := nextId st in
  (mkState (_entries st) (recentlyRcvdOscCmds st) (lastReceiveTime st) None
     (socketopen st) (Some handle) (<[handle := 1000]> cleared) (receivedOne st)
     (S (nextId st)),
   closing).

(** ['ready'] *)
Definition on_ready (st : State) : State * list Effect :=
  (mkState (_entries st) (recentlyRcvdOscCmds st) (lastReceiveTime st) (socket st)
     true (retryTimeout st) (timers st) (receivedOne st) (nextId st),
   [Log Open; Log WaitingFirst]).

(** ['error'] *)
Definition on_error (e : Js.Error) (st : State) : State * list Effect :=
  let st1 :=
    mkState (_entries st) (recentlyRcvdOscCmds st) (lastReceiveTime st) (socket st)
      false (retryTimeout st) (timers st) (receivedOne st) (nextId st) in
  let '(st2, out) := delayRetry st1 in
  (st2, Log (Error e) :: out).

(** The targets of the ['data'] handler: every comma-separated entry that
    [parseInt] reads as a positive number, on 127.0.0.1. *)
Definition proxy_ports (proxyPort : string) : list float :=
  omap (fun p => let pNum := Js.parseInt (Js.trim p) in
                 if negb (Js.isNaN pNum) && (0 <? pNum)%float then Some pNum else None)
       (Js.split "," proxyPort).

(** The loop of the ['data'] handler: [udpClient.send] throws on a port
    above 65535, which ends the loop and leaves the handler. *)
Fixpoint forward (msg : list byte) (pieces : list string) : list Effect :=
  match pieces with
  | [] => []
  | p :: rest =>
      let pNum := Js.parseInt (Js.trim p) in
      if negb (Js.isNaN pNum) && (0 <? pNum)%float
      then if valid_port pNum
           then UdpClientSend msg pNum "127.0.0.1" :: forward msg rest
           else [Uncaught ERR_SOCKET_BAD_PORT]
      else forward msg rest
  end.

(** ['data'] *)
Definition on_data (cfg : Config) (msg : list byte) (st : State)
  : State * list Effect :=
  match osc_proxy cfg with
  | Some proxyPort =>
      if bool_decide (proxyPort = "") then (st, [])
      else (st, forward msg (Js.split "," proxyPort))
  | None => (st, [])
  end.

(** ['message'] of the socket [s]; [now] is [Date.now()]. *)
Definition on_message (s : nat) (oscMsg : OscMessage) (now : Z) (st : State)
  : State * list Effect :=
  let first := negb (default false (receivedOne st !! s)) in
  let out := if first then [Log ProbablyConnected] else [] in
  let seen := if first then <[s := true]> (receivedOne st) else receivedOne st in
  let with_entries (m : gmap string OscValue) :=
    mkState m (recentlyRcvdOscCmds st + 1) now (socket st) (socketopen st)
      (retryTimeout st) (timers st) seen (nextId st) in
  let path := address oscMsg in
  if bool_decide (path = "") then (with_entries (_entries st), out)
  else if bool_decide (path = "/avatar/change")
  then (with_entries ∅, out ++ [Log AvatarChange])%list
  else
    match args oscMsg with
    | Some (arg :: _) =>
        let rawValue := arg_value arg in
        if Js.startsWith "/avatar/parameters/" path
        then
          let key := Js.substring_from (String.length "/avatar/parameters/") path in
          let cell := default Cell.fresh (_entries st !! key) in
          (with_entries (<[key := fst (Cell.receivedUpdate rawValue cell)]> (_entries st)),
           out)
        else (with_entries (_entries st), out)
    | _ => (with_entries (_entries st), out)
    end.

(** [send(paramName, value)] *)
Definition send (paramName : string) (v : float) (st : State) : State * list Effect :=
  match socket st with
  | Some s =>
      if socketopen st
      then (st, [SocketSend s (mkOscMessage ("/avatar/parameters/" +:+ paramName)
                                 (Some [mkOscArg "f" (Js.Number v)]))])
      else (st, [])
  | None => (st, [])
  end.

(** [clearDeltas()] *)
Definition clearDeltas (st : State) : State * list Effect :=
  (mkState (Cell.clearDelta <$> _entries st) (recentlyRcvdOscCmds st)
     (lastReceiveTime st) (socket st) (socketopen st) (retryTimeout st) (timers st)
     (receivedOne st) (nextId st),
   []).

(** The body of the constructor's [setInterval]. *)
Definition on_interval (st : State) : State * list Effect :=
  if 0 <? recentlyRcvdOscCmds st
  then (mkState (_entries st) 0 (lastReceiveTime st) (socket st) (socketopen st)
          (retryTimeout st) (timers st) (receivedOne st) (nextId st),
        [Log (ReceivedCount (recentlyRcvdOscCmds st))])
  else (st, []).

Inductive Event : Type :=
| TimerFired (id : nat)
| IntervalFired
| SocketReady (s : nat)
| SocketError (s : nat) (e : Js.Error)
| SocketData (s : nat) (msg : list byte)
| SocketMessage (s : nat) (oscMsg : OscMessage) (now : Z)
| CallDelayRetry
| CallSend (paramName : string) (v : float)
| CallClearDeltas.

(** A retry timer fires: it leaves the pending set and [openSocket] runs. *)
Definition fire_timer (cfg : Config) (id : nat) (st : State) : State * list Effect :=
  match timers st !! id with
  | Some _ =>
      openSocket cfg
        (mkState (_entries st) (recentlyRcvdOscCmds st) (lastReceiveTime st)
           (socket st) (socketopen st) (retryTimeout st) (delete id (timers st))
           (receivedOne st) (nextId st))
  | None => (st, [])
  end.

(** Run a socket handler if the socket was created. *)
Definition on_socket (s : nat) (handler : State -> State * list Effect) (st : State)
  : State * list Effect :=
  match receivedOne st !! s with
  | Some _ => handler st
  | None => (st, [])
  end.

Definition step (cfg : Config) (ev : Event) (st : State) : State * list Effect :=
  match ev with
  | TimerFired id => fire_timer cfg id st
  | IntervalFired => on_interval st
  | SocketReady s => on_socket s on_ready st
  | SocketError s e => on_socket s (on_error e) st
  | SocketData s msg => on_socket s (on_data cfg msg) st
  | SocketMessage s oscMsg now => on_socket s (on_message s oscMsg now) st
  | CallDelayRetry => delayRetry st
  | CallSend paramName v => send paramName v st
  | CallClearDeltas => clearDeltas st
  end.

Fixpoint run (evs : list (Config * Event)) (st : State) : State * list Effect :=
  match evs with
  | [] => (st, [])
  | (cfg, ev) :: rest =>
      let '(st1, out1) := step cfg ev st in
      let '(st2, out2) := run rest st1 in
      (st2, (out1 ++ out2)%list)
  end.

(** The instance before its constructor ran, and after. *)
Definition blank : State := mkState ∅ 0 0 None false None ∅ ∅ 0%nat.
Definition initial (cfg : Config) : State := fst (openSocket cfg blank).

(** Every pending retry timer is the one [retryTimeout] holds. *)
Definition retry_handle_inv (st : State) : Prop :=
  forall id d, timers st !! id = Some d -> retryTimeout st = Some id.

End Legacy.

(** A raw forward of the first revision, as the effect of the second. *)
Definition forward_effect (e : Legacy.Effect) : option Effect :=
  match e with
  | Legacy.UdpClientSend msg toPort toAddress => Some (UdpClientSend msg toPort toAddress)
  | Legacy.Uncaught e => Some (Uncaught e)
  | _ => None
  end.

(** The first revision is caught up with the second on the store: the two
    stores hold the same cells. *)
Definition same_store (st : Legacy.State) (w : World) : Prop :=
  Legacy._entries st = entries w.

(** * Properties *)

(** Unfold the monad's plumbing. *)
Ltac unfold_monad :=
  unfold exec, output, bind, ret, get, modify, emit, read, assign in *.


Section cell_delta.
Import DeltaSpec.

Lemma numeric_steps_snoc prev vs v :
  numeric_steps prev (vs ++ [v]) =
  (numeric_steps prev vs ++ numeric_step (default prev (last vs)) v)%list.
Proof.
  revert prev. induction vs as [|x vs IH]; intros prev; simpl.
  - by rewrite app_nil_r.
  - rewrite IH, <- app_assoc. do 2 f_equal.
    destruct vs as [|y vs]; [done|].
    change (last (x :: y :: vs)) with (last (y :: vs)).
    by destruct (last (y :: vs)) eqn:E; [|apply last_None in E].
Qed.

Lemma delta_receivedUpdate v c :
  delta (fst (Cell.receivedUpdate v c)) =
  sum_onto (delta c) (numeric_step (value c) v).
Proof. unfold Cell.receivedUpdate. simpl. by destruct (value c), v. Qed.

(** The cell's delta follows the window of the statement. *)
Lemma delta_window ops : forall c start base since,
  value c = default start (last since) ->
  delta c = sum_onto base (numeric_steps start since) ->
  delta (apply_ops ops c) =
    let '(s, b, vs) := window start base since ops in
    sum_onto b (numeric_steps s vs).
Proof.
  induction ops as [|[v|] ops IH]; intros c start base since Hv Hd.
  - done.
  - change (apply_ops (OpUpdate v :: ops) c)
      with (apply_ops ops (fst (Cell.receivedUpdate v c))).
    apply IH.
    + simpl. by rewrite last_snoc.
    + rewrite delta_receivedUpdate, numeric_steps_snoc, Hd, Hv.
      unfold sum_onto. by rewrite fold_left_app.
  - change (apply_ops (OpClearDelta :: ops) c)
      with (apply_ops ops (Cell.clearDelta c)).
    apply IH; [exact Hv|done].
Qed.

Lemma delta_apply_ops ops c : delta (apply_ops ops c) = accumulated c ops.
Proof. unfold accumulated. by apply delta_window. Qed.

End cell_delta.

Section store_facts.
Import DeltaSpec.

Lemma entries_receivedParamValue_live p v w :
  entries (exec (receivedParamValue (Some p) v false) w) =
  if Js.is_undefined v then entries w
  else <[p := fst (Cell.receivedUpdate v (default Cell.fresh (entries w !! p)))]>
         (entries w).
Proof.
  unfold receivedParamValue, entries. destruct (Js.is_undefined v); [done|].
  unfold_monad. simpl. by destruct (_entries (this w) !! p).
Qed.

Lemma entries_clearDeltas w :
  entries (exec clearDeltas w) = Cell.clearDelta <$> entries w.
Proof. done. Qed.

Lemma exec_for_of_cons {A} (x : A) xs body w :
  exec (for_of (x :: xs) body) w = exec (for_of xs body) (exec (body x) w).
Proof.
  unfold exec. simpl. unfold bind.
  destruct (body x w) as [[[] w1] o1]. simpl.
  by destruct (for_of xs body w1) as [[[] w2] o2].
Qed.

(** A history of the store acts on each cell as its projection does. *)
Lemma lookup_store_ops k ops : forall w,
  entries (exec (for_of ops store_op) w) !! k =
  match entries w !! k with
  | Some c => Some (apply_ops (project k ops) c)
  | None => if updates k ops then Some (apply_ops (project k ops) Cell.fresh)
            else None
  end.
Proof.
  unfold updates.
  induction ops as [|[p v|] ops IH]; intros w.
  - change (exec (for_of [] store_op) w) with w. simpl.
    by destruct (entries w !! k).
  - rewrite exec_for_of_cons, IH.
    change (store_op (Received p v)) with (receivedParamValue (Some p) v false).
    rewrite entries_receivedParamValue_live. simpl project.
    destruct (Js.is_undefined v) eqn:Hu.
    { by rewrite andb_false_r. }
    rewrite andb_true_r. case_bool_decide as Hp.
    + subst p. rewrite lookup_insert_eq. simpl.
      by destruct (entries w !! k).
    + by rewrite lookup_insert_ne.
  - rewrite exec_for_of_cons, IH.
    change (store_op ClearDeltas) with clearDeltas.
    rewrite entries_clearDeltas, lookup_fmap. simpl.
    by destruct (entries w !! k).
Qed.

End store_facts.

(** ** C1: the delta of a cell *)

(** C1. For every cell and every history of updates and delta-clears, the
    cell's delta is the sum, added in order, of the absolute differences
    between consecutive values, counting only the steps whose two sides are
    numbers, since the last [clearDelta]. In a store, the delta of the cell
    [k] is that sum over the operations that reach [k], whatever happens to
    other parameters in between. An update with a non-numeric side leaves
    the delta as it is. *)
Theorem delta_is_sum_of_numeric_steps :
  (forall (c : OscValue) (ops : list DeltaSpec.CellOp),
      delta (DeltaSpec.apply_ops ops c) = DeltaSpec.accumulated c ops)
  /\ (forall (w : World) (ops : list DeltaSpec.StoreOp) (k : string) (c : OscValue),
      entries (exec (for_of ops DeltaSpec.store_op) w) !! k = Some c ->
      delta c =
        DeltaSpec.accumulated (default Cell.fresh (entries w !! k))
          (DeltaSpec.project k ops))
  /\ (forall (c : OscValue) (v : Js.Value),
      Js.is_number (value c) && Js.is_number v = false ->
      delta (fst (Cell.receivedUpdate v c)) = delta c).
Proof.
  split; [|split].
  - intros c ops. apply delta_apply_ops.
  - intros w ops k c. rewrite lookup_store_ops.
    destruct (entries w !! k) as [c0|]; simpl.
    + intros [= <-]. apply delta_apply_ops.
    + destruct (DeltaSpec.updates k ops); [|done].
      intros [= <-]. apply delta_apply_ops.
  - intros c v H. unfold Cell.receivedUpdate. simpl.
    by destruct (value c), v.
Qed.

Lemma delta_is_sum_of_numeric_steps_witness :
  entries (exec (for_of Scenario.history DeltaSpec.store_op) blank) !! "a"
    = Some (mkOscValue (Js.Number 4) 1.5)
  /\ 1.5%float = DeltaSpec.accumulated Cell.fresh (DeltaSpec.project "a" Scenario.history)
  /\ delta (fst (Cell.receivedUpdate (Js.Str "x") (mkOscValue (Js.Number 3) 0)))
     = 0%float.
Proof.
  split; [vm_compute; reflexivity|]. split.
  - apply (proj1 (proj2 delta_is_sum_of_numeric_steps) blank Scenario.history "a"
             (mkOscValue (Js.Number 4) 1.5)).
    vm_compute. reflexivity.
  - apply (proj2 (proj2 delta_is_sum_of_numeric_steps)
             (mkOscValue (Js.Number 3) 0) (Js.Str "x")).
    reflexivity.
Defined.

(** ** Running computations *)

Section running.
Context {A B : Type}.

Lemma exec_bind (m : M A) (k : A -> M B) w :
  exec (bind m k) w = exec (k (fst (fst (m w)))) (exec m w).
Proof.
  unfold exec, bind. destruct (m w) as [[a w1] o1]. simpl.
  by destruct (k a w1) as [[b w2] o2].
Qed.

Lemma output_bind (m : M A) (k : A -> M B) w :
  output (bind m k) w =
  (output m w ++ output (k (fst (fst (m w)))) (exec m w))%list.
Proof.
  unfold output, exec, bind. destruct (m w) as [[a w1] o1]. simpl.
  by destruct (k a w1) as [[b w2] o2].
Qed.

End running.

Lemma run_unit (m : M unit) w : m w = (tt, exec m w, output m w).
Proof. unfold exec, output. by destruct (m w) as [[[] w1] o1]. Qed.

(** ** C2: bulk data never overwrites a cell *)

Lemma entries_receivedParamValue param v onlyUseIfNew w :
  entries (exec (receivedParamValue param v onlyUseIfNew) w) =
  match param with
  | None => entries w
  | Some p =>
      if Js.is_undefined v then entries w
      else match entries w !! p with
           | None => <[p := fst (Cell.receivedUpdate v Cell.fresh)]> (entries w)
           | Some c0 =>
               if onlyUseIfNew then entries w
               else <[p := fst (Cell.receivedUpdate v c0)]> (entries w)
           end
  end.
Proof.
  unfold receivedParamValue, entries. destruct param as [p|]; [|done].
  destruct (Js.is_undefined v); [done|].
  unfold_monad. simpl. destruct (_entries (this w) !! p); [|done].
  by destruct onlyUseIfNew.
Qed.

Lemma receivedParamValue_keeps_present param v w k c :
  entries w !! k = Some c ->
  entries (exec (receivedParamValue param v true) w) !! k = Some c.
Proof.
  intros Hk. rewrite entries_receivedParamValue.
  destruct param as [p|]; [|done].
  destruct (Js.is_undefined v); [done|].
  destruct (entries w !! p) eqn:Hp; [done|].
  rewrite lookup_insert_ne; [done|]. congruence.
Qed.

Lemma bulk_merge_keeps_present (nodes : list Node) : forall w k c,
  entries w !! k = Some c ->
  entries (exec (for_of nodes (fun node =>
      receivedParamValue (parseParamFromPath (default "" (full_path node)))
        (first_value (arguments node)) true)) w) !! k = Some c.
Proof.
  induction nodes as [|node nodes IH]; intros w k c Hk; [done|].
  rewrite exec_for_of_cons. apply IH.
  by apply receivedParamValue_keeps_present.
Qed.

(** C2. For a name that already has a cell, a bulk-reconciliation value
    ([receivedParamValue] with [onlyUseIfNew = true]) changes nothing at
    all: the world is the same and nothing is emitted; a whole bulk answer,
    however it settles, leaves every existing cell with its value and
    delta; and for a name with no cell, a defined bulk value creates the
    cell with that value and delta 0 and announces it. *)
Theorem bulk_value_never_overwrites :
  (forall (w : World) (p : string) (v : Js.Value) (c : OscValue),
      entries w !! p = Some c ->
      receivedParamValue (Some p) v true w = (tt, w, []))
  /\ (forall (w : World) (myAttempt : nat) settled (k : string) (c : OscValue),
      entries w !! k = Some c ->
      entries (exec (_updateBulk_resume myAttempt settled) w) !! k = Some c)
  /\ (forall (w : World) (p : string) (v : Js.Value),
      entries w !! p = None ->
      Js.is_undefined v = false ->
      entries (exec (receivedParamValue (Some p) v true) w)
        = <[p := mkOscValue v 0]> (entries w)
      /\ output (receivedParamValue (Some p) v true) w
        = [EmitChange p Js.Undefined v; EmitAdd p (mkOscValue v 0)]).
Proof.
  split; [|split].
  - intros w p v c Hp. unfold receivedParamValue.
    destruct (Js.is_undefined v); [done|].
    unfold_monad. simpl. unfold entries in Hp. by rewrite Hp.
  - intros w myAttempt settled k c Hk.
    destruct settled as [[nodes|]|e]; [|done..].
    unfold _updateBulk_resume. rewrite exec_bind.
    change (exec (isStillValid myAttempt) w) with w.
    rewrite exec_bind.
    change (entries (exec updateBulk_done ?w') !! k) with (entries w' !! k).
    destruct (fst (fst (isStillValid myAttempt w))); [|done].
    by apply bulk_merge_keeps_present.
  - intros w p v Hp Hv. unfold receivedParamValue, entries in *.
    rewrite Hv. unfold_monad. simpl. rewrite Hp. simpl.
    by destruct v.
Qed.

Lemma bulk_value_never_overwrites_witness :
  entries Scenario.live !! "foo" = Some (mkOscValue (Js.Number 1) 0)
  /\ entries (exec (_updateBulk_resume 4 Scenario.bulk_answer) Scenario.live) !! "foo"
     = Some (mkOscValue (Js.Number 1) 0)
  /\ receivedParamValue (Some "foo") (Js.Number 2) true Scenario.live
     = (tt, Scenario.live, [])
  /\ entries (exec (receivedParamValue (Some "bar") (Js.Number 7) true) Scenario.live)
     = <["bar" := mkOscValue (Js.Number 7) 0]> (entries Scenario.live).
Proof.
  assert (H : entries Scenario.live !! "foo" = Some (mkOscValue (Js.Number 1) 0))
    by (vm_compute; reflexivity).
  split; [exact H|]. split; [|split].
  - exact (proj1 (proj2 bulk_value_never_overwrites) Scenario.live 4%nat
             Scenario.bulk_answer "foo" _ H).
  - exact (proj1 bulk_value_never_overwrites Scenario.live "foo" (Js.Number 2) _ H).
  - apply (proj2 (proj2 bulk_value_never_overwrites) Scenario.live "bar" (Js.Number 7)).
    + vm_compute. reflexivity.
    + reflexivity.
Defined.

(** ** C6: the sender filter *)

(** C6. A parsed message whose sender is not in the trusted set changes
    nothing: the handler returns at once, the world (store, counters,
    timers, pending work) is the same and nothing is emitted, logged or
    thrown, whatever the socket and whatever the message. *)
Theorem untrusted_message_is_dropped :
  forall (env : Services) (w : World) (s : nat) (oscMsg : OscMessage)
         (rinfo : RemoteInfo) (now1 now2 : Z),
    rinfo_address rinfo ∉ myAddresses env ->
    step env (SocketMessage s oscMsg rinfo now1 now2) w = (tt, w, [])
    /\ on_message env s oscMsg rinfo now1 now2 w = (tt, w, []).
Proof.
  intros env w s oscMsg rinfo now1 now2 Hfrom.
  assert (H : on_message env s oscMsg rinfo now1 now2 w = (tt, w, [])).
  { unfold on_message. by rewrite bool_decide_eq_false_2. }
  split; [|exact H].
  unfold step, on_socket. unfold_monad.
  destruct (receivedOne w !! s); [|done]. by rewrite H.
Qed.

Lemma untrusted_message_is_dropped_witness :
  step Scenario.env
    (SocketMessage 3 (Scenario.float_msg "/avatar/parameters/Speed" 1)
       Scenario.stranger 10 10) Scenario.opened
  = (tt, Scenario.opened, []).
Proof.
  apply (untrusted_message_is_dropped Scenario.env Scenario.opened 3%nat).
  vm_compute. intros H. discriminate H.
Defined.

(** ** C7: outbound dispatch *)

(** C7. [send(paramName, value)] never changes the state and never throws.
    With no socket, with the socket not open, or with no peer address known
    it sends nothing; otherwise it sends exactly one message, to the
    discovered host and port, addressed ["/avatar/parameters/" + paramName]
    and carrying the single float argument. *)
Theorem send_is_guarded :
  forall (env : Services) (w : World) (paramName : string) (v : float),
    send env paramName v w =
    (tt, w,
     match oscSocket (this w), socketopen (this w), getOscAddress env with
     | Some s, true, Some (host, hostPort) =>
         [SocketSend s
            (mkOscMessage ("/avatar/parameters/" +:+ paramName)
               (Some [mkOscArg "f" (Js.Number v)]))
            host hostPort]
     | _, _, _ => []
     end).
Proof.
  intros env w paramName v. unfold send. unfold_monad. simpl.
  destruct (oscSocket (this w)); [|done].
  destruct (socketopen (this w)); [|done]. simpl.
  by destruct (getOscAddress env) as [[host hostPort]|].
Qed.

(** ** C9: the context-reset message *)

(** C9. A message from a trusted sender addressed ["/avatar/change"] empties
    the store, emits ['clear'] exactly once and no other store event (no
    parameter update is processed from it), and starts a new bulk
    attempt: the request is issued, [waitingForBulk] is set, and the
    current attempt token is a newly minted one with its request pending. *)
Theorem avatar_change_resets_store :
  forall (env : Services) (w : World) (s : nat) (oscMsg : OscMessage)
         (rinfo : RemoteInfo) (now1 now2 : Z),
    rinfo_address rinfo ∈ myAddresses env ->
    is_Some (receivedOne w !! s) ->
    address oscMsg = "/avatar/change" ->
    let w' := exec (step env (SocketMessage s oscMsg rinfo now1 now2)) w in
    let out := output (step env (SocketMessage s oscMsg rinfo now1 now2)) w in
    entries w' = ∅
    /\ store_effects out = [EmitClear]
    /\ GetBulk ∈ out
    /\ waitingForBulk (this w') = true
    /\ exists myAttempt fetch,
         (nextId w <= myAttempt)%nat
         /\ updateBulkAttempt (this w') = Some myAttempt
         /\ awaits w' !! fetch = Some (AwaitBulk myAttempt).
Proof.
  intros env w s oscMsg rinfo now1 now2 Hfrom [b Hs] Haddr w' out.
  subst w' out. unfold step, on_socket, on_message.
  rewrite Haddr. rewrite (bool_decide_eq_true_2 _ Hfrom).
  unfold_monad. rewrite Hs. simpl. rewrite Hs.
  destruct b; simpl.
  - split; [done|]. split; [done|]. split; [set_solver|]. split; [done|].
    exists (nextId w), (S (nextId w)). split; [lia|]. split; [done|].
    simpl. apply lookup_insert_eq.
  - split; [done|]. split; [done|]. split; [set_solver|]. split; [done|].
    exists (S (S (S (nextId w)))), (S (S (S (S (nextId w))))).
    split; [lia|]. split; [done|].
    simpl. apply lookup_insert_eq.
Qed.

Lemma avatar_change_resets_store_witness :
  let ev := SocketMessage 3 (mkOscMessage "/avatar/change" None) Scenario.game 20 20 in
  entries Scenario.live !! "foo" = Some (mkOscValue (Js.Number 1) 0)
  /\ entries (exec (step Scenario.env ev) Scenario.live) = ∅
  /\ store_effects (output (step Scenario.env ev) Scenario.live) = [EmitClear].
Proof.
  intros ev. split; [vm_compute; reflexivity|].
  assert (H := avatar_change_resets_store Scenario.env Scenario.live 3%nat
                 (mkOscMessage "/avatar/change" None) Scenario.game 20 20).
  destruct H as (H1 & H2 & _).
  - vm_compute. reflexivity.
  - exists true. vm_compute. reflexivity.
  - reflexivity.
  - split; [exact H1|exact H2].
Defined.

(** ** C10: the raw-forward path *)

Lemma output_for_of_cons {A} (x : A) xs body w :
  output (for_of (x :: xs) body) w =
  (output (body x) w ++ output (for_of xs body) (exec (body x) w))%list.
Proof. apply (output_bind (body x) (fun _ => for_of xs body)). Qed.

(** The loop of the ['data'] handler, as a listener: it forwards to the
    entries with a positive port, in order, until a port is refused, and
    leaves the world alone. *)
Lemma forward_loop (msg : list byte) (ps : list string) w :
  listener (for_of_throwing ps (fun p =>
    let '(address, port) := parsePort (Some (Js.trim p)) "127.0.0.1" 0 in
    if (0 <? port)%float then udpClient_send msg port address else ret None)) w
  = (tt, w,
     forwarding msg
       (filter (fun target => (0 <? snd target)%float = true)
          (map (fun p => parsePort (Some (Js.trim p)) "127.0.0.1" 0) ps))).
Proof.
  induction ps as [|p ps IH]; [done|].
  simpl map. rewrite filter_cons. revert IH.
  unfold listener. simpl for_of_throwing.
  destruct (parsePort (Some (Js.trim p)) "127.0.0.1" 0) as [a n]. simpl snd.
  intros IH. destruct (0 <? n)%float eqn:Hn.
  - rewrite decide_True by done. simpl forwarding. unfold udpClient_send.
    destruct (valid_port n); [|done].
    unfold bind in *. simpl.
    destruct (for_of_throwing ps _ w) as [[thrown w1] out1].
    destruct thrown as [e|]; simpl in *; by inversion IH.
  - rewrite decide_False by done.
    unfold bind in *. simpl.
    destruct (for_of_throwing ps _ w) as [[thrown w1] out1].
    destruct thrown as [e|]; simpl in *; rewrite ?app_nil_r in *; by inversion IH.
Qed.

(** While no port is refused every target is sent to. *)
Lemma forwarding_app msg before after :
  Forall (fun target => valid_port (snd target) = true) before ->
  forwarding msg (before ++ after)
  = (map (fun target => UdpClientSend msg (snd target) (fst target)) before
       ++ forwarding msg after)%list.
Proof.
  induction 1 as [|[a n] before Hn _ IH]; [done|].
  simpl in *. by rewrite Hn, IH.
Qed.




(** ** C8: two updates of one parameter *)

(** What a parameter message from a trusted sender does to the store: the
    live update of [receivedParamValue], nothing else; the socket stays. *)
Lemma message_updates_store env s oscMsg rinfo now1 now2 w :
  is_Some (receivedOne w !! s) ->
  rinfo_address rinfo ∈ myAddresses env ->
  address oscMsg <> "" ->
  address oscMsg <> "/avatar/change" ->
  let w' := exec (step env (SocketMessage s oscMsg rinfo now1 now2)) w in
  entries w' =
    entries (exec (receivedParamValue (parseParamFromPath (address oscMsg))
                     (first_value (map arg_value <$> args oscMsg)) false) w)
  /\ is_Some (receivedOne w' !! s).
Proof.
  intros [b Hs] Hfrom Hne Hnc w'. subst w'.
  rewrite !entries_receivedParamValue.
  unfold step, on_socket, on_message.
  rewrite (bool_decide_eq_true_2 _ Hfrom).
  rewrite (bool_decide_eq_false_2 _ Hne), (bool_decide_eq_false_2 _ Hnc).
  unfold receivedParamValue.
  destruct (parseParamFromPath (address oscMsg)) as [p|];
    [destruct (Js.is_undefined (first_value (map arg_value <$> args oscMsg)))|].
  all: unfold_monad; rewrite Hs; simpl; rewrite Hs; unfold entries.
  all: destruct b; simpl; try destruct (_entries (this w) !! p); simpl.
  all: split; [done|]; rewrite ?lookup_insert_eq; eauto.
Qed.

(** C8, as amended. After the updates [/avatar/parameters/Speed = 0.5] and
    then [= 0.8] from trusted senders, on a store with no cell [Speed], the
    cell [Speed] holds 0.8 and its delta is the binary64 difference
    [|0.8 - 0.5|], which is [0x1.3333333333334p-2] (0.30000000000000004),
    the binary64 value next above the one the literal 0.3 denotes. *)
Theorem speed_delta_is_float_difference :
  forall (env1 env2 : Services) (w : World) (s : nat) (rinfo1 rinfo2 : RemoteInfo)
         (a1 a2 b1 b2 : Z),
    is_Some (receivedOne w !! s) ->
    rinfo_address rinfo1 ∈ myAddresses env1 ->
    rinfo_address rinfo2 ∈ myAddresses env2 ->
    entries w !! "Speed" = None ->
    entries (exec (run
      [ (env1, SocketMessage s (Scenario.float_msg "/avatar/parameters/Speed" 0.5) rinfo1 a1 a2);
        (env2, SocketMessage s (Scenario.float_msg "/avatar/parameters/Speed" 0.8) rinfo2 b1 b2) ])
      w) !! "Speed"
    = Some (mkOscValue (Js.Number 0.8) 0x1.3333333333334p-2)
    /\ PrimFloat.abs (PrimFloat.sub 0.8 0.5) = 0x1.3333333333334p-2%float
    /\ PrimFloat.next_up 0.3 = 0x1.3333333333334p-2%float.
Proof.
  intros env1 env2 w s rinfo1 rinfo2 a1 a2 b1 b2 Hs H1 H2 Hfresh.
  split; [|split; reflexivity].
  unfold run. rewrite !exec_for_of_cons.
  change (exec (for_of [] ?f) ?w') with w'.
  destruct (message_updates_store env1 s
              (Scenario.float_msg "/avatar/parameters/Speed" 0.5) rinfo1 a1 a2 w
              Hs H1) as [E1 Hs1]; [done..|].
  destruct (message_updates_store env2 s
              (Scenario.float_msg "/avatar/parameters/Speed" 0.8) rinfo2 b1 b2 _
              Hs1 H2) as [E2 _]; [done..|].
  rewrite E2, entries_receivedParamValue.
  change (parseParamFromPath _) with (Some "Speed"). simpl Js.is_undefined. cbv iota.
  rewrite E1, entries_receivedParamValue.
  change (parseParamFromPath _) with (Some "Speed"). simpl Js.is_undefined. cbv iota.
  rewrite Hfresh, lookup_insert_eq, lookup_insert_eq. reflexivity.
Qed.

Lemma speed_delta_is_float_difference_witness :
  entries (exec (run Scenario.speed_updates) Scenario.opened) !! "Speed"
  = Some (mkOscValue (Js.Number 0.8) 0x1.3333333333334p-2).
Proof.
  apply (speed_delta_is_float_difference Scenario.env Scenario.env Scenario.opened
           3%nat Scenario.game Scenario.game 10 10 11 11).
  - exists false. vm_compute. reflexivity.
  - vm_compute. reflexivity.
  - vm_compute. reflexivity.
  - vm_compute. reflexivity.
Defined.

(** The statement of C8 as written fails: the delta is not the number the
    literal 0.3 denotes. *)
Lemma speed_delta_is_not_0_3 :
  entries (exec (run Scenario.speed_updates) Scenario.opened) !! "Speed"
  <> Some (mkOscValue (Js.Number 0.8) 0.3).
Proof.
  intros H.
  apply (f_equal (fun o => match o with
                           | Some c => PrimFloat.eqb (delta c) 0.3
                           | None => true
                           end)) in H.
  vm_compute in H. discriminate H.
Qed.

(** ** Invariants through the monad *)

Section keeps_rules.
Context (P : World -> Prop).

Lemma keeps_ret {A} (a : A) : keeps P (ret a).
Proof. by intros w H. Qed.

Lemma keeps_bind {A B} (m : M A) (k : A -> M B) :
  keeps P m -> (forall a, keeps P (k a)) -> keeps P (bind m k).
Proof.
  intros Hm Hk w H. unfold keeps, hoare in *. rewrite exec_bind.
  apply Hk, Hm, H.
Qed.

Lemma keeps_emit e : keeps P (emit e).
Proof. by intros w H. Qed.

Lemma keeps_get : keeps P get.
Proof. by intros w H. Qed.

Lemma keeps_read {A} (field : OscConnection -> A) : keeps P (read field).
Proof. by intros w H. Qed.

Lemma keeps_for_of {A} (xs : list A) (body : A -> M unit) :
  (forall x, keeps P (body x)) -> keeps P (for_of xs body).
Proof.
  intros Hbody. induction xs as [|x xs IH]; [apply keeps_ret|].
  apply keeps_bind; [apply Hbody|]. intros _. apply IH.
Qed.

Lemma keeps_for_of_throwing {A} (xs : list A) (body : A -> M (option Js.Error)) :
  (forall x, keeps P (body x)) -> keeps P (for_of_throwing xs body).
Proof.
  intros Hbody. induction xs as [|x xs IH]; [apply keeps_ret|].
  apply keeps_bind; [apply Hbody|]. intros [e|]; [apply keeps_ret|apply IH].
Qed.

End keeps_rules.

(** The methods an invariant proof looks into. *)
Create HintDb methods.
#[local] Hint Unfold step on_socket on_ready on_error on_data on_message on_interval
  fire_timer settle_bulk openSocket openSocketUnsafe_port openSocketUnsafe_started
  _updateBulk_resume _updateBulk_begin updateBulk_catch updateBulk_retry
  updateBulk_done isStillValid receivedParamValue clearValues clearDeltas send
  error log suspend listener udpClient_send : methods.

(** Take a computation apart down to its state changes, closing with
    [leaf] every part it can. *)
Ltac keeps_with leaf :=
  repeat first
    [ solve [leaf]
    | apply keeps_ret
    | apply keeps_emit
    | apply keeps_get
    | apply keeps_read
    | apply keeps_bind; [|intros ?]
    | apply keeps_for_of; intros ?
    | apply keeps_for_of_throwing; intros ?
    | match goal with
      | |- keeps _ (match ?x with _ => _ end) => destruct x
      end
    | progress autounfold with methods ].

(** A computation that does not touch what the invariant reads. *)
Ltac untouched := intros ? ?; assumption.

(** ** C5: the retry timer *)

Section retry_timer.

Lemma retry_inv_setTimeout a ms :
  a <> RetryOpenSocket -> keeps retry_handle_inv (setTimeout a ms).
Proof.
  intros Ha w H id t. unfold exec, setTimeout, alloc. unfold_monad. simpl.
  intros Hid Ht. destruct (decide (nextId w = id)) as [<-|Hne].
  - rewrite lookup_insert_eq in Hid. injection Hid as <-. done.
  - rewrite lookup_insert_ne in Hid by done. by apply (H id t).
Qed.

Lemma retry_inv_delete id : keeps retry_handle_inv (modify (Upd.on_timers (delete id))).
Proof.
  intros w H id' t. unfold exec, modify. simpl. intros Hid Ht.
  apply lookup_delete_Some in Hid as [_ Hid]. by apply (H id' t).
Qed.

(** The state changes of every method but [delayRetry]. *)
Ltac retry_leaf :=
  first [ untouched | apply retry_inv_setTimeout; done | apply retry_inv_delete ].

Lemma retry_inv_updateBulk : keeps retry_handle_inv updateBulk.
Proof. unfold updateBulk. keeps_with retry_leaf. Qed.

Lemma retry_inv_delayRetry w : retry_handle_inv w ->
  retry_handle_inv (exec delayRetry w)
  /\ exists handle,
       retry_timers (exec delayRetry w) = {[ handle := mkTimer 1000 RetryOpenSocket ]}
       /\ retryTimeout (this (exec delayRetry w)) = Some handle.
Proof.
  intros H.
  assert (E : timers (exec delayRetry w) =
              <[nextId w := mkTimer 1000 RetryOpenSocket]>
                (match retryTimeout (this w) with
                 | Some old => delete old (timers w)
                 | None => timers w
                 end)
              /\ retryTimeout (this (exec delayRetry w)) = Some (nextId w)).
  { clear H. destruct w as [[? ? ? query sock ? handle ? ? ? ?] ? ? ? ?].
    by destruct query, sock, handle. }
  destruct E as [Et Er].
  assert (Hnone : forall id t,
             match retryTimeout (this w) with
             | Some old => delete old (timers w)
             | None => timers w
             end !! id = Some t -> action t <> RetryOpenSocket).
  { intros id t Hid Ht. destruct (retryTimeout (this w)) as [old|] eqn:Hold.
    - apply lookup_delete_Some in Hid as [Hne Hid].
      specialize (H id t Hid Ht). congruence.
    - specialize (H id t Hid Ht). congruence. }
  split.
  - intros id t. rewrite Et, Er. intros Hid Ht.
    destruct (decide (nextId w = id)) as [<-|Hne]; [done|].
    rewrite lookup_insert_ne in Hid by done. by destruct (Hnone id t Hid).
  - exists (nextId w). split; [|done].
    unfold retry_timers. rewrite Et.
    rewrite map_filter_insert_True by done.
    rewrite (proj2 (map_empty_filter _ _)); [done|].
    intros id t Hid Ht. by apply (Hnone id t Hid).
Qed.

Lemma retry_inv_step env ev : keeps retry_handle_inv (step env ev).
Proof.
  destruct ev; unfold step;
    try solve [keeps_with ltac:(first [retry_leaf | apply retry_inv_updateBulk])].
  intros w H. by apply retry_inv_delayRetry.
Qed.

Lemma retry_inv_run evs : keeps retry_handle_inv (run evs).
Proof. apply keeps_for_of. intros [env ev]. apply retry_inv_step. Qed.

Lemma retry_inv_initial : retry_handle_inv initial.
Proof. intros id t Hid. vm_compute in Hid. discriminate Hid. Qed.

Lemma retry_inv_at_most_one w :
  retry_handle_inv w -> (size (retry_timers w) <= 1)%nat.
Proof.
  intros H. destruct (retryTimeout (this w)) as [handle|] eqn:Hh.
  - assert (Hsub : dom (retry_timers w) ⊆ ({[ handle ]} : gset nat)).
    { intros id Hid. apply elem_of_dom in Hid as [t Hid].
      apply map_lookup_filter_Some in Hid as [Hid Ht]. simpl in Ht.
      specialize (H id t Hid Ht). rewrite Hh in H. injection H as ->.
      by apply elem_of_singleton. }
    rewrite <- size_dom. apply subseteq_size in Hsub.
    rewrite size_singleton in Hsub. lia.
  - unfold retry_timers.
    rewrite (proj2 (map_empty_filter _ _)); [rewrite map_size_empty; lia|].
    intros id t Hid Ht. specialize (H id t Hid Ht). congruence.
Qed.

End retry_timer.

(** ** C4: a failed start *)

Section no_retry.

Lemma no_retry_setTimeout a ms :
  a <> RetryOpenSocket -> keeps (fun w => ~ retry_scheduled w) (setTimeout a ms).
Proof.
  intros Ha w H (id & t & Hid & Ht). apply H. exists id, t. split; [|done].
  revert Hid. unfold exec, setTimeout, alloc. unfold_monad. simpl.
  destruct (decide (nextId w = id)) as [<-|Hne].
  - rewrite lookup_insert_eq. intros [= <-]. done.
  - by rewrite lookup_insert_ne.
Qed.

Lemma no_retry_delete id :
  keeps (fun w => ~ retry_scheduled w) (modify (Upd.on_timers (delete id))).
Proof.
  intros w H (id' & t & Hid & Ht). apply H. exists id', t. split; [|done].
  unfold exec, modify in Hid. simpl in Hid.
  by apply lookup_delete_Some in Hid as [_ Hid].
Qed.

Ltac no_retry_leaf :=
  first [ untouched | apply no_retry_setTimeout; done | apply no_retry_delete ].

Lemma no_retry_updateBulk : keeps (fun w => ~ retry_scheduled w) updateBulk.
Proof. unfold updateBulk. keeps_with no_retry_leaf. Qed.

(** No event but a call of [delayRetry] schedules a retry. *)
Lemma no_retry_step env ev :
  is_delayRetry ev = false -> keeps (fun w => ~ retry_scheduled w) (step env ev).
Proof.
  intros Hev. destruct ev; try discriminate Hev; unfold step;
    keeps_with ltac:(first [no_retry_leaf | apply no_retry_updateBulk]).
Qed.

Lemma no_retry_run evs :
  Forall (fun it : Services * Event => is_delayRetry (snd it) = false) evs ->
  keeps (fun w => ~ retry_scheduled w) (run evs).
Proof.
  induction 1 as [|[env ev] evs Hev _ IH]; [apply keeps_ret|].
  apply keeps_bind; [by apply no_retry_step|]. intros _. apply IH.
Qed.

(** [delayRetry] schedules one. *)
Lemma delayRetry_schedules w : retry_scheduled (exec delayRetry w).
Proof.
  exists (nextId w), (mkTimer 1000 RetryOpenSocket). split; [|done].
  destruct w as [[? ? ? query sock ? handle ? ? ? ?] ? ? ? ?].
  destruct query, sock, handle; apply lookup_insert_eq.
Qed.

End no_retry.

(** C4, as amended. When [openSocketUnsafe] raises (the port lookup or the
    OSCQuery start rejects, or opening the socket throws), [openSocket]
    catches the error and logs it, and that is all: no timer is created or
    cancelled, [retryTimeout] keeps its value, and a retry is scheduled
    afterwards only if one was scheduled before. A retry is scheduled only
    when [delayRetry] is called: if none was scheduled before the failure,
    none is after it and after any further events that are no call of
    [delayRetry], while a call of [delayRetry] always schedules one. *)
Theorem failed_start_is_only_logged :
  forall (env : Services) (w : World) (ev : Event) (e : Js.Error),
    connect_failure w ev = Some e ->
    last (output (step env ev) w) = Some (Log (LogError e))
    /\ store_effects (output (step env ev) w) = []
    /\ timers (exec (step env ev) w) = timers w
    /\ retryTimeout (this (exec (step env ev) w)) = retryTimeout (this w)
    /\ (retry_scheduled (exec (step env ev) w) <-> retry_scheduled w)
    /\ (forall later : list (Services * Event),
          Forall (fun it => is_delayRetry (snd it) = false) later ->
          ~ retry_scheduled w ->
          ~ retry_scheduled (exec (run later) (exec (step env ev) w)))
    /\ (forall (env' : Services) (w' : World),
          retry_scheduled (exec (step env' CallDelayRetry) w')).
Proof.
  intros env w ev e Hfail.
  assert (Ht : last (output (step env ev) w) = Some (Log (LogError e))
               /\ store_effects (output (step env ev) w) = []
               /\ timers (exec (step env ev) w) = timers w
               /\ retryTimeout (this (exec (step env ev) w)) = retryTimeout (this w)).
  { destruct ev as [id [port|e']|id [hostInfo|e'] [e''|]| | | | | | | | | |];
      try discriminate Hfail; simpl in Hfail; unfold step; unfold_monad;
      destruct (awaits w !! id) as [[]|]; try discriminate Hfail;
      injection Hfail as ->; done. }
  destruct Ht as (Hl & Hs & Ht & Hr). repeat (split; [done|]).
  assert (Hsame : retry_scheduled (exec (step env ev) w) <-> retry_scheduled w)
    by (unfold retry_scheduled; by rewrite Ht).
  split; [exact Hsame|]. split.
  - intros later Hlater Hnone. apply (no_retry_run later Hlater).
    by rewrite Hsame.
  - intros env' w'. apply delayRetry_schedules.
Qed.

Lemma failed_start_is_only_logged_witness :
  let w := exec (run [(Scenario.env, PortSettled 0 (Js.Resolved 33776))]) initial in
  let ev := OscQueryStartSettled 2 (Js.Rejected "EADDRINUSE") None in
  output (step Scenario.env ev) w = [Log (LogError "EADDRINUSE")]
  /\ timers (exec (step Scenario.env ev) w) = timers w.
Proof.
  intros w ev.
  split; [vm_compute; reflexivity|].
  apply (failed_start_is_only_logged Scenario.env w ev "EADDRINUSE").
  vm_compute. reflexivity.
Defined.

(** The statement of C4 as written fails: the OSCQuery server cannot start,
    and afterwards no retry is scheduled; nothing at all is pending. *)
Lemma failed_start_schedules_no_retry :
  let w := exec (run [(Scenario.env, PortSettled 0 (Js.Resolved 33776))]) initial in
  let ev := OscQueryStartSettled 2 (Js.Rejected "EADDRINUSE") None in
  connect_failure w ev = Some "EADDRINUSE"
  /\ exec (step Scenario.env ev) w = exec (run Scenario.failed_start) initial
  /\ ~ retry_scheduled (exec (run Scenario.failed_start) initial)
  /\ timers (exec (run Scenario.failed_start) initial) = ∅
  /\ awaits (exec (run Scenario.failed_start) initial) = ∅.
Proof.
  intros w ev.
  assert (Ht : timers (exec (run Scenario.failed_start) initial) = ∅)
    by (vm_compute; reflexivity).
  split; [vm_compute; reflexivity|]. split; [vm_compute; reflexivity|].
  split; [|split; [exact Ht|vm_compute; reflexivity]].
  intros (id & t & Hid & _). rewrite Ht, lookup_empty in Hid. discriminate Hid.
Qed.

Section handles.

Lemma allocated_alloc : keeps handles_allocated alloc.
Proof.
  intros w [Ht Hr]. split.
  - intros id Hid. specialize (Ht id Hid). simpl. lia.
  - intros handle Hh. specialize (Hr handle Hh). simpl. lia.
Qed.

Lemma allocated_setTimeout a ms : keeps handles_allocated (setTimeout a ms).
Proof.
  intros w [Ht Hr]. split.
  - intros id. unfold exec, setTimeout, alloc. unfold_monad. simpl.
    destruct (decide (nextId w = id)) as [<-|Hne]; [lia|].
    rewrite lookup_insert_ne by done. intros Hid. specialize (Ht id Hid). lia.
  - intros handle Hh. specialize (Hr handle Hh). simpl. lia.
Qed.

Lemma allocated_delete id : keeps handles_allocated (modify (Upd.on_timers (delete id))).
Proof.
  intros w [Ht Hr]. split; [|exact Hr].
  intros id'. unfold exec, modify. simpl. intros [t Hid].
  apply lookup_delete_Some in Hid as [_ Hid]. apply Ht. by exists t.
Qed.

Lemma allocated_delayRetry : keeps handles_allocated delayRetry.
Proof.
  intros w [Ht Hr].
  assert (E : timers (exec delayRetry w) =
              <[nextId w := mkTimer 1000 RetryOpenSocket]>
                (match retryTimeout (this w) with
                 | Some old => delete old (timers w)
                 | None => timers w
                 end)
              /\ retryTimeout (this (exec delayRetry w)) = Some (nextId w)
              /\ nextId (exec delayRetry w) = S (nextId w)).
  { clear Ht Hr. destruct w as [[? ? ? query sock ? handle ? ? ? ?] ? ? ? ?].
    by destruct query, sock, handle. }
  destruct E as (Et & Er & En). split.
  - intros id. rewrite Et, En.
    destruct (decide (nextId w = id)) as [<-|Hne]; [lia|].
    rewrite lookup_insert_ne by done. intros [t Hid].
    assert (is_Some (timers w !! id)) as Hsome.
    { destruct (retryTimeout (this w)); [|by exists t].
      apply lookup_delete_Some in Hid as [_ Hid]. by exists t. }
    specialize (Ht id Hsome). lia.
  - intros handle. rewrite Er, En. intros [= <-]. lia.
Qed.

Ltac allocated_leaf :=
  first [ untouched | apply allocated_alloc | apply allocated_setTimeout
        | apply allocated_delete | apply allocated_delayRetry ].

Lemma allocated_updateBulk : keeps handles_allocated updateBulk.
Proof. unfold updateBulk. keeps_with allocated_leaf. Qed.

Lemma allocated_step env ev : keeps handles_allocated (step env ev).
Proof.
  destruct ev; unfold step;
    keeps_with ltac:(first [allocated_leaf | apply allocated_updateBulk]).
Qed.

Lemma allocated_run evs : keeps handles_allocated (run evs).
Proof. apply keeps_for_of. intros [env ev]. apply allocated_step. Qed.

Lemma allocated_initial : handles_allocated initial.
Proof.
  split.
  - intros id [t Hid]. vm_compute in Hid. discriminate Hid.
  - intros handle Hh. vm_compute in Hh. discriminate Hh.
Qed.

End handles.

(** C5. In every state the instance can reach there is at most one pending
    retry timer. Every call of [delayRetry] cancels the retry timer it finds
    and schedules one new retry with a delay of 1000 ms under a new handle,
    which it stores in [retryTimeout]: after the call exactly one retry is
    pending, so also after any sequence of calls. *)
Theorem at_most_one_retry_timer :
  forall (evs : list (Services * Event)),
    let w := exec (run evs) initial in
    (size (retry_timers w) <= 1)%nat
    /\ exists handle,
         retry_timers (exec delayRetry w)
           = {[ handle := mkTimer 1000 RetryOpenSocket ]}
         /\ retryTimeout (this (exec delayRetry w)) = Some handle
         /\ timers w !! handle = None
         /\ forall old, retryTimeout (this w) = Some old ->
                        timers (exec delayRetry w) !! old = None.
Proof.
  intros evs w.
  assert (Hinv : retry_handle_inv w) by apply retry_inv_run, retry_inv_initial.
  assert (Hall : handles_allocated w) by apply allocated_run, allocated_initial.
  split; [by apply retry_inv_at_most_one|].
  assert (E : timers (exec delayRetry w) =
              <[nextId w := mkTimer 1000 RetryOpenSocket]>
                (match retryTimeout (this w) with
                 | Some old => delete old (timers w)
                 | None => timers w
                 end)
              /\ retryTimeout (this (exec delayRetry w)) = Some (nextId w)).
  { clear Hinv Hall. generalize w. clear w.
    intros [[? ? ? query sock ? handle ? ? ? ?] ? ? ? ?].
    by destruct query, sock, handle. }
  destruct E as [Et Er].
  destruct (retry_inv_delayRetry w Hinv) as [_ (handle & Hone & Hh)].
  exists handle. split; [exact Hone|]. split; [exact Hh|].
  rewrite Er in Hh. injection Hh as <-.
  destruct Hall as [Ht Hr]. split.
  - destruct (timers w !! nextId w) eqn:E; [|done].
    assert (nextId w < nextId w)%nat by (apply Ht; eauto). lia.
  - intros old Hold. rewrite Et, Hold.
    specialize (Hr old Hold).
    rewrite lookup_insert_ne by lia. apply lookup_delete_eq.
Qed.

(** ** C3: a superseded bulk attempt *)

Section stale_attempt.
Context (tok : nat).

Lemma superseded_alloc : keeps (superseded tok) alloc.
Proof. intros w [Hne Hlt]. split; [exact Hne|]. simpl. lia. Qed.

Lemma superseded_updateBulk : keeps (superseded tok) updateBulk.
Proof.
  intros w [Hne Hlt]. split.
  - change (updateBulkAttempt (this (exec updateBulk w))) with (Some (nextId w)).
    intros [= E]. lia.
  - change (nextId (exec updateBulk w)) with (S (S (S (nextId w)))). lia.
Qed.

Lemma superseded_clear :
  keeps (superseded tok) (assign (Upd.set_updateBulkAttempt None)).
Proof. intros w [Hne Hlt]. split; [done|exact Hlt]. Qed.

Ltac superseded_leaf :=
  first [ untouched | apply superseded_alloc | apply superseded_updateBulk
        | apply superseded_clear ].

Lemma superseded_step env ev : keeps (superseded tok) (step env ev).
Proof.
  destruct ev; unfold step; try solve [keeps_with superseded_leaf].
  unfold delayRetry, setTimeout, clearTimeout. keeps_with superseded_leaf.
Qed.

Lemma superseded_run evs : keeps (superseded tok) (run evs).
Proof. apply keeps_for_of. intros [env ev]. apply superseded_step. Qed.

(** Both ways of superseding an attempt that was minted. *)
Lemma supersede w : (tok < nextId w)%nat ->
  superseded tok (exec delayRetry w) /\ superseded tok (exec updateBulk w).
Proof.
  intros Hlt. split.
  - destruct w as [[? ? ? query sock ? handle ? ? ? ?] ? ? ? ?].
    by destruct query, sock, handle; (split; [|simpl in *; lia]).
  - split.
    + change (updateBulkAttempt (this (exec updateBulk w))) with (Some (nextId w)).
      intros [= E]. lia.
    + change (nextId (exec updateBulk w)) with (S (S (S (nextId w)))). lia.
Qed.

(** The continuation of a superseded attempt finds its token stale. *)
Lemma stale_resume w settled :
  updateBulkAttempt (this w) <> Some tok ->
  entries (exec (_updateBulk_resume tok settled) w) = entries w
  /\ store_effects (output (_updateBulk_resume tok settled) w) = []
  /\ GetBulk ∉ output (_updateBulk_resume tok settled) w.
Proof.
  intros Hne. destruct settled as [[nodes|]|e]; simpl.
  - unfold isStillValid. unfold_monad. simpl.
    rewrite (bool_decide_eq_false_2 _ Hne). simpl.
    split; [done|]. split; [done|]. apply not_elem_of_nil.
  - split; [done|]. split; [done|]. by intros [=]%list_elem_of_singleton.
  - split; [done|]. split; [done|]. by intros [=]%list_elem_of_singleton.
Qed.

Lemma stale_step env ev w :
  updateBulkAttempt (this w) <> Some tok ->
  resumed_attempt w ev = Some tok ->
  entries (exec (step env ev) w) = entries w
  /\ store_effects (output (step env ev) w) = []
  /\ GetBulk ∉ output (step env ev) w.
Proof.
  intros Hne Hres.
  destruct ev as [| |id settled|id| | | | | | | |]; try discriminate Hres;
    simpl in Hres.
  - unfold step, settle_bulk. unfold_monad. simpl.
    destruct (awaits w !! id) as [[| |a]|]; try discriminate Hres.
    injection Hres as ->.
    destruct (stale_resume (Upd.on_awaits (delete id) w) settled Hne)
      as (He & Hs & Hg).
    rewrite (run_unit (_updateBulk_resume tok settled)). simpl.
    by rewrite He.
  - unfold step, fire_timer. unfold_monad. simpl.
    destruct (timers w !! id) as [[ms [|fetch|a]]|]; simpl in Hres;
      try discriminate Hres; simpl.
    + unfold settle_bulk. unfold_monad. simpl.
      destruct (awaits w !! fetch) as [[| |a]|]; try discriminate Hres.
      injection Hres as ->. simpl. split; [done|]. split; [done|].
      by intros [=]%list_elem_of_singleton.
    + injection Hres as ->. unfold updateBulk_retry, isStillValid.
      unfold_monad. simpl. rewrite (bool_decide_eq_false_2 _ Hne). simpl.
      split; [done|]. split; [done|]. apply not_elem_of_nil.
Qed.

End stale_attempt.

(** C3. Let the attempt token [tok] be minted. A call of [delayRetry] (which
    clears [updateBulkAttempt]) and a newer [updateBulk] (which mints a new
    token) both supersede it. Once it is superseded it stays superseded
    whatever happens next, and when the event loop then resumes the attempt
    (its bulk request settles with any result or error, its ten second
    timeout fires, or its 100 ms wait ends) the parameter store is left as
    it is: no cell is created or changed, no store event is emitted, and no
    new bulk request is issued; the fetched pairs are dropped. *)
Theorem superseded_attempt_never_mutates_store :
  forall (w : World) (tok : nat),
    (tok < nextId w)%nat ->
    (updateBulkAttempt (this (exec delayRetry w)) <> Some tok
     /\ updateBulkAttempt (this (exec updateBulk w)) <> Some tok)
    /\ (updateBulkAttempt (this w) <> Some tok ->
        forall (evs : list (Services * Event)) (env : Services) (ev : Event),
          let w' := exec (run evs) w in
          resumed_attempt w' ev = Some tok ->
          entries (exec (step env ev) w') = entries w'
          /\ store_effects (output (step env ev) w') = []
          /\ GetBulk ∉ output (step env ev) w').
Proof.
  intros w tok Hlt. split.
  - destruct (supersede tok w Hlt) as [[H1 _] [H2 _]]. by split.
  - intros Hne evs env ev w' Hres.
    assert (Hsup : superseded tok w') by (apply (superseded_run tok evs w); by split).
    destruct Hsup as [Hne' _]. by apply (stale_step tok).
Qed.

Lemma superseded_attempt_never_mutates_store_witness :
  let reset := exec delayRetry Scenario.live in
  let later := exec (run Scenario.after_reset) reset in
  let answer := BulkSettled 5 Scenario.bulk_answer in
  resumed_attempt later answer = Some 4%nat
  /\ entries later = ∅
  /\ entries (exec (step Scenario.env answer) later) = entries later.
Proof.
  intros reset later answer.
  assert (Hres : resumed_attempt later answer = Some 4%nat)
    by (vm_compute; reflexivity).
  split; [exact Hres|]. split; [vm_compute; reflexivity|].
  assert (Hlt : (4 < nextId reset)%nat) by (vm_compute; lia).
  assert (Hne : updateBulkAttempt (this reset) <> Some 4%nat)
    by (vm_compute; discriminate).
  exact (proj1 (proj2 (superseded_attempt_never_mutates_store reset 4%nat Hlt) Hne
           Scenario.after_reset Scenario.env answer Hres)).
Defined.

(** The same answer, had the attempt not been superseded, is merged: the
    live value of [foo] stays and [bar] is created. *)
Example current_attempt_is_merged :
  entries (exec (step Scenario.env (BulkSettled 5 Scenario.bulk_answer)) Scenario.live)
  = <["bar" := mkOscValue (Js.Number 7) 0]>
      (<["foo" := mkOscValue (Js.Number 1) 0]> ∅).
Proof. vm_compute. reflexivity. Qed.

(** * Further properties *)

(** ** [parsePort] *)

Section parse_port.

Lemma includes_app_sep c s r : Js.includes c (s +:+ String c r) = true.
Proof.
  induction s as [|d s IH]; simpl.
  - by rewrite Ascii.eqb_refl.
  - destruct (Ascii.eqb c d); [done|exact IH].
Qed.

Lemma split_no_sep c s : Js.includes c s = false -> Js.split c s = [s].
Proof.
  induction s as [|d s IH]; simpl; [done|].
  destruct (Ascii.eqb c d); [done|]. intros H. by rewrite (IH H).
Qed.

Lemma split_app_sep c s r :
  Js.includes c s = false ->
  Js.split c (s +:+ String c r) = s :: Js.split c r.
Proof.
  induction s as [|d s IH]; simpl.
  - by rewrite Ascii.eqb_refl.
  - destruct (Ascii.eqb c d); [done|]. intros H. by rewrite (IH H).
Qed.

Lemma digit_cases d : 0 <= d < 10 ->
  d = 0 \/ d = 1 \/ d = 2 \/ d = 3 \/ d = 4 \/ d = 5 \/ d = 6 \/ d = 7 \/ d = 8 \/ d = 9.
Proof. lia. Qed.

Lemma digit_digit_char d : 0 <= d < 10 -> Js.digit 10 (digit_char d) = Some d.
Proof.
  intros H. destruct (digit_cases d H) as [->|[->|[->|[->|[->|[->|[->|[->|[->| ->]]]]]]]]];
    reflexivity.
Qed.

Lemma digits_decimal ds :
  Forall (fun d => 0 <= d < 10) ds -> Js.digits 10 (decimal ds) = ds.
Proof.
  induction 1 as [|d ds Hd _ IH]; [done|].
  change (match Js.digit 10 (digit_char d) with
          | Some d0 => d0 :: Js.digits 10 (decimal ds)
          | None => []
          end = d :: ds).
  by rewrite (digit_digit_char d Hd), IH.
Qed.

Lemma includes_decimal ds :
  Forall (fun d => 0 <= d < 10) ds -> Js.includes ":" (decimal ds) = false.
Proof.
  induction 1 as [|d ds Hd _ IH]; [done|].
  change ((if Ascii.eqb ":" (digit_char d) then true
           else Js.includes ":" (decimal ds)) = false).
  rewrite IH.
  by destruct (digit_cases d Hd) as [->|[->|[->|[->|[->|[->|[->|[->|[->| ->]]]]]]]]].
Qed.

(** [parseInt] on a string that starts with a decimal digit and does not
    go on as a [0x] prefix. *)
Lemma parseInt_leading_digit d rest :
  0 <= d < 10 ->
  (d = 0 -> match rest with
            | String c _ => c <> "x"%char /\ c <> "X"%char
            | EmptyString => True
            end) ->
  Js.parseInt (String (digit_char d) rest) =
  Js.number (Js.digits_value 10 (d :: Js.digits 10 rest)).
Proof.
  intros Hd Hx.
  assert (Hdigits : Js.digits 10 (String (digit_char d) rest) = d :: Js.digits 10 rest).
  { change (Js.digits 10 (String (digit_char d) rest))
      with (match Js.digit 10 (digit_char d) with
            | Some d0 => d0 :: Js.digits 10 rest
            | None => []
            end).
    by rewrite (digit_digit_char d Hd). }
  unfold Js.parseInt.
  replace (Js.trimStart (String (digit_char d) rest)) with (String (digit_char d) rest)
    by (by destruct (digit_cases d Hd)
             as [->|[->|[->|[->|[->|[->|[->|[->|[->| ->]]]]]]]]]).
  destruct (decide (d = 0)) as [->|Hnz].
  - change (digit_char 0) with "0"%char in *. cbv beta iota zeta.
    specialize (Hx eq_refl).
    assert (Hprefix :
      match rest with
      | String "x"%char r => (16, r)
      | String "X"%char r => (16, r)
      | _ => (10, String "0"%char rest)
      end = (10, String "0"%char rest)).
    { destruct rest as [|c r]; [done|]. destruct Hx as [Hx1 Hx2].
      destruct c as [[] [] [] [] [] [] [] []]; done. }
    by rewrite Hprefix, Hdigits.
  - assert (d = 1 \/ d = 2 \/ d = 3 \/ d = 4 \/ d = 5 \/ d = 6 \/ d = 7 \/ d = 8 \/ d = 9)
      as [->|[->|[->|[->|[->|[->|[->|[->| ->]]]]]]]] by lia;
      match goal with
      | |- context [digit_char ?n] =>
          let c := eval vm_compute in (digit_char n) in
          change (digit_char n) with c in *
      end;
      cbv beta iota zeta; by rewrite Hdigits.
Qed.

(** [parseInt] reads a run of decimal digits as the number they write. *)
Lemma parseInt_decimal ds :
  is_decimal ds -> Js.parseInt (decimal ds) = Js.number (Js.digits_value 10 ds).
Proof.
  intros [Hne Hall]. destruct ds as [|d ds]; [done|].
  assert (Hd : 0 <= d < 10) by (by inversion Hall).
  assert (Hds : Forall (fun d => 0 <= d < 10) ds) by (by inversion Hall).
  change (decimal (d :: ds)) with (String (digit_char d) (decimal ds)).
  rewrite parseInt_leading_digit, (digits_decimal ds Hds); [done|done|].
  intros _. destruct ds as [|d' ds]; [done|].
  assert (Hd' : 0 <= d' < 10) by (by inversion Hds).
  change (decimal (d' :: ds)) with (String (digit_char d') (decimal ds)).
  by destruct (digit_cases d' Hd') as [->|[->|[->|[->|[->|[->|[->|[->|[->| ->]]]]]]]]].
Qed.

(** A positive number is a number. *)
Lemma positive_not_NaN (x : float) : (0 <? x)%float = true -> Js.isNaN x = false.
Proof.
  unfold Js.isNaN, PrimFloat.is_nan. rewrite ltb_spec, eqb_spec.
  destruct (Prim2SF x) as [s|s| |s m e]; try done.
  - intros _. by destruct s.
  - intros _. unfold SFeqb, SFcompare.
    destruct s; rewrite Z.compare_refl, Pos.compare_refl; done.
Qed.

End parse_port.

(** X1. [parsePort] never returns a port that is zero, negative or [NaN]
    unless that is the default it was given: the port is the default or it
    is positive. An input with no colon (also a missing input) keeps the
    default address. *)
Theorem parsePort_default_or_positive :
  forall (inputObj : option string) (defAddress : string) (defPort : float),
    (snd (parsePort inputObj defAddress defPort) = defPort
     \/ (0 <? snd (parsePort inputObj defAddress defPort))%float = true)
    /\ (Js.includes ":" (default "" inputObj) = false ->
        fst (parsePort inputObj defAddress defPort) = defAddress)
    /\ parsePort None defAddress defPort = (defAddress, defPort).
Proof.
  intros inputObj defAddress defPort. unfold parsePort.
  split; [|split; [|done]].
  - destruct (Js.includes ":" (default "" inputObj)); simpl;
      destruct (Js.isNaN (Js.parseInt _)); simpl; try (by left);
      (destruct (0 <? Js.parseInt _)%float eqn:Hpos; [by right|by left]).
  - by intros ->.
Qed.

Lemma parsePort_default_or_positive_witness :
  fst (parsePort (Some "9002") "127.0.0.1" 0) = "127.0.0.1".
Proof.
  apply (proj1 (proj2 (parsePort_default_or_positive (Some "9002") "127.0.0.1" 0))).
  reflexivity.
Defined.

(** X2. [parsePort] reads back what was written: for a host with no colon
    and a run of decimal digits that writes a positive number,
    ["host:digits"] parses to that host and the Number value of what the
    digits write (the nearest binary64 value: the number itself up to
    2^53), and the digits alone parse to the default address and that
    value, whatever follows a second colon. *)
Theorem parsePort_reads_host_and_port :
  forall (host : string) (ds : list Z) (defAddress : string) (defPort : float),
    Js.includes ":" host = false ->
    is_decimal ds ->
    (0 <? Js.number (Js.digits_value 10 ds))%float = true ->
    parsePort (Some (host +:+ String ":" (decimal ds))) defAddress defPort
      = (host, Js.number (Js.digits_value 10 ds))
    /\ parsePort (Some (decimal ds)) defAddress defPort
      = (defAddress, Js.number (Js.digits_value 10 ds))
    /\ forall junk : string,
         parsePort (Some (host +:+ String ":" (decimal ds +:+ String ":" junk)))
           defAddress defPort
         = (host, Js.number (Js.digits_value 10 ds)).
Proof.
  intros host ds defAddress defPort Hhost Hds Hpos.
  assert (Hnc : Js.includes ":" (decimal ds) = false)
    by (apply includes_decimal, Hds).
  assert (Hnum := positive_not_NaN _ Hpos).
  unfold parsePort. simpl default. split; [|split].
  - rewrite includes_app_sep, (split_app_sep _ _ _ Hhost), (split_no_sep _ _ Hnc).
    simpl nth. by rewrite (parseInt_decimal ds Hds), Hnum, Hpos.
  - by rewrite Hnc, (parseInt_decimal ds Hds), Hnum, Hpos.
  - intros junk.
    rewrite includes_app_sep, (split_app_sep _ _ _ Hhost), (split_app_sep _ _ _ Hnc).
    simpl nth. by rewrite (parseInt_decimal ds Hds), Hnum, Hpos.
Qed.

Lemma parsePort_reads_host_and_port_witness :
  parsePort (Some "10.0.0.2:9003") "127.0.0.1" 0 = ("10.0.0.2", 9003%float)
  /\ parsePort (Some "h:9007199254740993") "127.0.0.1" 0
     = ("h", 9007199254740992%float).
Proof.
  split.
  - apply (parsePort_reads_host_and_port "10.0.0.2" [9; 0; 0; 3] "127.0.0.1" 0).
    + reflexivity.
    + split; [done|]. repeat constructor; lia.
    + reflexivity.
  - apply (parsePort_reads_host_and_port "h"
             [9; 0; 0; 7; 1; 9; 9; 2; 5; 4; 7; 4; 0; 9; 9; 3] "127.0.0.1" 0).
    + reflexivity.
    + split; [done|]. repeat constructor; lia.
    + reflexivity.
Defined.

(** ** Relations through the monad *)

Section follows_rules.
Context (R : World -> World -> list Effect -> Prop) `{!Stepwise R}.

Lemma follows_ret {A} (a : A) : follows R (ret a).
Proof. intros w. apply stepwise_stay. Qed.

Lemma follows_emit e : follows R (emit e).
Proof. intros w. apply stepwise_stay. Qed.

Lemma follows_get : follows R get.
Proof. intros w. apply stepwise_stay. Qed.

Lemma follows_read {A} (field : OscConnection -> A) : follows R (read field).
Proof. intros w. apply stepwise_stay. Qed.

Lemma follows_bind {A B} (m : M A) (k : A -> M B) :
  follows R m -> (forall a, follows R (k a)) -> follows R (bind m k).
Proof.
  intros Hm Hk w. rewrite exec_bind, output_bind.
  eapply stepwise_trans; [apply Hm|apply Hk].
Qed.

Lemma follows_for_of {A} (xs : list A) (body : A -> M unit) :
  (forall x, follows R (body x)) -> follows R (for_of xs body).
Proof.
  intros Hbody. induction xs as [|x xs IH]; [apply follows_ret|].
  apply follows_bind; [apply Hbody|]. intros _. apply IH.
Qed.

Lemma follows_for_of_throwing {A} (xs : list A) (body : A -> M (option Js.Error)) :
  (forall x, follows R (body x)) -> follows R (for_of_throwing xs body).
Proof.
  intros Hbody. induction xs as [|x xs IH]; [apply follows_ret|].
  apply follows_bind; [apply Hbody|]. intros [e|]; [apply follows_ret|apply IH].
Qed.

End follows_rules.

(** The methods a proof about the store looks into; the ones that write
    the store are met by name. *)
Create HintDb store_methods.
#[local] Hint Unfold step on_socket on_ready on_error on_data on_message on_interval
  fire_timer settle_bulk openSocket openSocketUnsafe_port openSocketUnsafe_started
  _updateBulk_resume _updateBulk_begin updateBulk_catch updateBulk_retry
  updateBulk_done isStillValid send error log suspend delayRetry clearTimeout
  setTimeout updateBulk listener udpClient_send : store_methods.

Ltac follows_with leaf :=
  repeat first
    [ solve [leaf]
    | apply follows_ret; exact _
    | apply follows_emit; exact _
    | apply follows_get; exact _
    | apply follows_read; exact _
    | apply follows_bind; [exact _| |intros ?]
    | apply follows_for_of; [exact _|intros ?]
    | apply follows_for_of_throwing; [exact _|intros ?]
    | match goal with
      | |- follows _ (match ?x with _ => _ end) => destruct x
      end
    | progress autounfold with store_methods ].

Ltac keeps_store_with leaf :=
  repeat first
    [ solve [leaf]
    | apply keeps_ret
    | apply keeps_emit
    | apply keeps_get
    | apply keeps_read
    | apply keeps_bind; [|intros ?]
    | apply keeps_for_of; intros ?
    | apply keeps_for_of_throwing; intros ?
    | match goal with
      | |- keeps _ (match ?x with _ => _ end) => destruct x
      end
    | progress autounfold with store_methods ].

Lemma store_effects_app out1 out2 :
  store_effects (out1 ++ out2) = (store_effects out1 ++ store_effects out2)%list.
Proof. apply filter_app. Qed.

(** ** The store and its events *)

Section store_events.

#[local] Instance silent_stepwise : Stepwise silent_keeps_store.
Proof.
  split.
  - by intros w out _.
  - intros w1 w2 w3 out1 out2 H1 H2 Hs.
    rewrite store_effects_app in Hs. apply app_eq_nil in Hs as [Hs1 Hs2].
    by rewrite (H2 Hs2), (H1 Hs1).
Qed.

#[local] Instance additions_stepwise : Stepwise additions_announced.
Proof.
  split.
  - intros w out k Hnone [c Hc]. congruence.
  - intros w1 w2 w3 out1 out2 H1 H2 k Hnone Hsome.
    destruct (entries w2 !! k) as [c|] eqn:Hk.
    + destruct (H1 k Hnone) as [cell Hcell]; [by exists c|].
      exists cell. apply elem_of_app. by left.
    + destruct (H2 k Hk Hsome) as [cell Hcell].
      exists cell. apply elem_of_app. by right.
Qed.

(** A computation that does not write the store. *)
Ltac store_untouched_silent := intros ? ?; reflexivity.
Ltac store_untouched_additions :=
  let k := fresh in let Hnone := fresh in let c := fresh in let Hc := fresh in
  intros ? k Hnone [c Hc]; exfalso;
  match type of Hnone with
  | entries ?w !! _ = None => change (entries w !! k = Some c) in Hc
  end; congruence.

Lemma silent_clearValues : follows silent_keeps_store clearValues.
Proof. intros w H. discriminate H. Qed.

Lemma silent_receivedParamValue param v b :
  follows silent_keeps_store (receivedParamValue param v b).
Proof.
  intros w. unfold silent_keeps_store, receivedParamValue.
  destruct param as [p|]; [|done].
  destruct (Js.is_undefined v); [done|].
  unfold_monad. simpl. destruct (_entries (this w) !! p); [|done].
  by destruct b.
Qed.

Lemma additions_clearValues : follows additions_announced clearValues.
Proof.
  intros w k _ [c Hc]. change (entries (exec clearValues w)) with (∅ : gmap string OscValue) in Hc.
  by rewrite lookup_empty in Hc.
Qed.

Lemma additions_clearDeltas : follows additions_announced clearDeltas.
Proof.
  intros w k Hnone [c Hc]. rewrite entries_clearDeltas, lookup_fmap, Hnone in Hc.
  discriminate Hc.
Qed.

Lemma additions_receivedParamValue param v b :
  follows additions_announced (receivedParamValue param v b).
Proof.
  intros w k Hnone [c Hc]. rewrite entries_receivedParamValue in Hc.
  unfold receivedParamValue.
  destruct param as [p|]; [|congruence].
  destruct (Js.is_undefined v); [congruence|].
  unfold_monad. simpl. unfold entries in *.
  destruct (_entries (this w) !! p) eqn:Hp.
  - destruct b; [congruence|].
    destruct (decide (p = k)) as [->|Hne]; [congruence|].
    rewrite lookup_insert_ne in Hc by done. congruence.
  - destruct (decide (p = k)) as [->|Hne].
    + eexists. simpl. apply elem_of_cons. right. apply list_elem_of_singleton.
      reflexivity.
    + rewrite lookup_insert_ne in Hc by done. congruence.
Qed.

Lemma silent_step env ev :
  not_clearDeltas ev -> follows silent_keeps_store (step env ev).
Proof.
  destruct ev; intros Hev; try contradiction; unfold step;
    follows_with ltac:(first [ store_untouched_silent | apply silent_clearValues
                             | apply silent_receivedParamValue ]).
Qed.

Lemma additions_step env ev : follows additions_announced (step env ev).
Proof.
  destruct ev; unfold step;
    follows_with ltac:(first [ store_untouched_additions | apply additions_clearValues
                             | apply additions_clearDeltas
                             | apply additions_receivedParamValue ]).
Qed.

Lemma undefined_receivedParamValue param v b :
  keeps no_undefined_stored (receivedParamValue param v b).
Proof.
  intros w H k c. rewrite entries_receivedParamValue.
  destruct param as [p|]; [|apply H].
  destruct (Js.is_undefined v) eqn:Hv; [apply H|].
  destruct (entries w !! p) eqn:Hp; [destruct b; [apply H|]|];
    (destruct (decide (p = k)) as [->|Hne];
     [rewrite lookup_insert_eq; intros [= <-]; simpl; by destruct v
     |rewrite lookup_insert_ne by done; apply H]).
Qed.

Lemma undefined_clearValues : keeps no_undefined_stored clearValues.
Proof.
  intros w _ k c Hc.
  change (entries (exec clearValues w)) with (∅ : gmap string OscValue) in Hc.
  by rewrite lookup_empty in Hc.
Qed.

Lemma undefined_clearDeltas : keeps no_undefined_stored clearDeltas.
Proof.
  intros w H k c. rewrite entries_clearDeltas, lookup_fmap.
  destruct (entries w !! k) as [c0|] eqn:Hk; [|done].
  intros [= <-]. simpl. by apply (H k).
Qed.

Lemma undefined_step env ev : keeps no_undefined_stored (step env ev).
Proof.
  destruct ev; unfold step;
    keeps_store_with ltac:(first [ untouched | apply undefined_receivedParamValue
                                 | apply undefined_clearValues
                                 | apply undefined_clearDeltas ]).
Qed.

Lemma silent_run evs :
  Forall (fun e : Services * Event => not_clearDeltas (snd e)) evs ->
  follows silent_keeps_store (run evs).
Proof.
  induction 1 as [|[env ev] evs Hev _ IH]; [apply follows_ret; exact _|].
  apply follows_bind; [exact _|by apply silent_step|]. intros _. apply IH.
Qed.

Lemma additions_run evs : follows additions_announced (run evs).
Proof. apply follows_for_of; [exact _|]. intros [env ev]. apply additions_step. Qed.

Lemma undefined_run evs : keeps no_undefined_stored (run evs).
Proof. apply keeps_for_of. intros [env ev]. apply undefined_step. Qed.

End store_events.

(** X3. The store never holds [undefined]: in every state reachable from
    the constructor, and after any run from a world whose cells are all
    defined, every cell's value is something other than [undefined]. *)
Theorem store_never_holds_undefined :
  forall (evs : list (Services * Event)) (k : string) (c : OscValue),
    (entries (exec (run evs) initial) !! k = Some c -> value c <> Js.Undefined)
    /\ forall w, no_undefined_stored w ->
                 entries (exec (run evs) w) !! k = Some c -> value c <> Js.Undefined.
Proof.
  intros evs k c. split.
  - apply (undefined_run evs initial). intros k' c' H'.
    change (entries initial) with (∅ : gmap string OscValue) in H'.
    by rewrite lookup_empty in H'.
  - intros w Hw. by apply (undefined_run evs w).
Qed.

Lemma store_never_holds_undefined_witness :
  entries (exec (run (Scenario.boot ++ Scenario.first_message)) initial) !! "foo"
    = Some (mkOscValue (Js.Number 1) 0)
  /\ Js.Number 1 <> Js.Undefined.
Proof.
  assert (H : entries (exec (run (Scenario.boot ++ Scenario.first_message)) initial)
              !! "foo" = Some (mkOscValue (Js.Number 1) 0))
    by (vm_compute; reflexivity).
  split; [exact H|].
  exact (proj1 (store_never_holds_undefined _ "foo" _) H).
Defined.

(** X4. Every change of the store by the event loop is announced: over any
    run that contains no call of [clearDeltas], if the output has no
    ['add'], ['change'] or ['clear'] event then the store is exactly as it
    was. *)
Theorem silent_run_keeps_store :
  forall (evs : list (Services * Event)) (w : World),
    Forall (fun e : Services * Event => not_clearDeltas (snd e)) evs ->
    store_effects (output (run evs) w) = [] ->
    entries (exec (run evs) w) = entries w.
Proof. intros evs w Hevs. by apply silent_run. Qed.

Lemma silent_run_keeps_store_witness :
  entries (exec (run Scenario.boot) initial) = entries initial.
Proof.
  apply (silent_run_keeps_store Scenario.boot initial).
  - repeat constructor.
  - vm_compute. reflexivity.
Defined.

(** X5. Every new cell is announced: over any run, a name that had no cell
    before and has one afterwards was the subject of an ['add'] event in
    the output. *)
Theorem new_cells_are_announced :
  forall (evs : list (Services * Event)) (w : World) (k : string),
    entries w !! k = None ->
    is_Some (entries (exec (run evs) w) !! k) ->
    exists cell, EmitAdd k cell ∈ output (run evs) w.
Proof. intros evs w k. apply additions_run. Qed.

Lemma new_cells_are_announced_witness :
  exists cell, EmitAdd "foo" cell ∈ output (run Scenario.first_message) Scenario.opened.
Proof.
  apply (new_cells_are_announced Scenario.first_message Scenario.opened "foo").
  - vm_compute. reflexivity.
  - exists (mkOscValue (Js.Number 1) 0). vm_compute. reflexivity.
Defined.

(** X6. [clearDeltas] zeroes the delta of every cell and nothing else: each
    name keeps its cell and its value, no event is emitted, and a second
    call changes nothing more. *)
Theorem clearDeltas_zeroes_every_delta :
  forall (w : World),
    output clearDeltas w = []
    /\ (forall k, entries (exec clearDeltas w) !! k
                  = (fun c => mkOscValue (value c) 0) <$> entries w !! k)
    /\ exec clearDeltas (exec clearDeltas w) = exec clearDeltas w.
Proof.
  intros w. split; [done|]. split.
  - intros k. by rewrite entries_clearDeltas, lookup_fmap.
  - destruct w as [[m ? ? ? ? ? ? ? ? ? ?] ? ? ? ?].
    unfold exec, clearDeltas, assign, modify. simpl.
    unfold Upd.on_this, Upd.on_entries. simpl. do 2 f_equal.
    rewrite <- map_fmap_compose. apply map_fmap_ext. by intros k [v d] _.
Qed.

(** ** The message handler *)

Section message_handler.

(** A message from an untrusted sender, or for a socket that was never
    created, does nothing. *)
Lemma message_not_accepted env s oscMsg rinfo now1 now2 w :
  accepted w (env, SocketMessage s oscMsg rinfo now1 now2) = false ->
  step env (SocketMessage s oscMsg rinfo now1 now2) w = (tt, w, []).
Proof.
  unfold accepted, step, on_socket, on_message. simpl. unfold_monad.
  destruct (receivedOne w !! s) as [b|] eqn:Hs; [|done].
  rewrite (bool_decide_eq_true_2 (is_Some (Some b))) by eauto. simpl.
  by intros ->.
Qed.

(** What every accepted message does, whatever its address. *)
Lemma accepted_message env s oscMsg rinfo now1 now2 w (b : bool) :
  receivedOne w !! s = Some b ->
  rinfo_address rinfo ∈ myAddresses env ->
  let m := step env (SocketMessage s oscMsg rinfo now1 now2) in
  recentlyRcvdOscCmds (this (exec m w)) = recentlyRcvdOscCmds (this w) + 1
  /\ lastPacket (this (exec m w)) = now1
  /\ lastReceiveTime (this (exec m w)) = now2
  /\ receivedOne (exec m w) = (if b then receivedOne w else <[s := true]> (receivedOne w))
  /\ bulk_requests (output m w)
     = ((if b then 0 else 1)
        + (if bool_decide (address oscMsg = "/avatar/change") then 1 else 0))%nat.
Proof.
  intros Hs Hfrom m. subst m. unfold step, on_socket, on_message.
  rewrite (bool_decide_eq_true_2 _ Hfrom).
  destruct (decide (address oscMsg = "")) as [He|He].
  - rewrite (bool_decide_eq_true_2 _ He).
    rewrite (bool_decide_eq_false_2 (address oscMsg = "/avatar/change"))
      by (rewrite He; discriminate).
    unfold_monad. rewrite Hs. simpl. rewrite Hs. by destruct b.
  - rewrite (bool_decide_eq_false_2 _ He). case_bool_decide as Hc.
    + unfold_monad. rewrite Hs. simpl. rewrite Hs. by destruct b.
    + unfold receivedParamValue.
      destruct (parseParamFromPath (address oscMsg)) as [p|];
        [destruct (Js.is_undefined (first_value (map arg_value <$> args oscMsg)))|].
      all: unfold_monad; rewrite Hs; simpl; rewrite Hs.
      all: destruct b; simpl; try destruct (_entries (this w) !! p); done.
Qed.

Lemma accepted_after_message env ev w e :
  is_message ev -> accepted (exec (step env ev) w) e = accepted w e.
Proof.
  destruct ev as [| | | | | | | |s oscMsg rinfo now1 now2| | |]; try done. intros _.
  destruct e as [env' [| | | | | | | |s' oscMsg' rinfo' now1' now2'| | |]]; try done.
  destruct (accepted w (env, SocketMessage s oscMsg rinfo now1 now2)) eqn:Hacc.
  - unfold accepted in Hacc. simpl in Hacc.
    apply andb_true_iff in Hacc as [Hs Hfrom].
    apply bool_decide_eq_true_1 in Hs as [b Hs].
    apply bool_decide_eq_true_1 in Hfrom.
    destruct (accepted_message env s oscMsg rinfo now1 now2 w b Hs Hfrom)
      as (_ & _ & _ & Hr & _).
    unfold accepted. simpl in *. f_equal. apply bool_decide_ext.
    rewrite Hr. destruct b; [done|].
    destruct (decide (s = s')) as [<-|Hne].
    + rewrite lookup_insert_eq, Hs. split; eauto.
    + by rewrite lookup_insert_ne.
  - unfold exec. by rewrite (message_not_accepted _ _ _ _ _ _ _ Hacc).
Qed.

Lemma count_accepted_after_message env ev w evs :
  is_message ev -> count_accepted (exec (step env ev) w) evs = count_accepted w evs.
Proof.
  intros Hev. induction evs as [|e evs IH]; [done|].
  simpl. by rewrite IH, accepted_after_message.
Qed.

Lemma counter_after_message env ev w :
  is_message ev ->
  recentlyRcvdOscCmds (this (exec (step env ev) w))
  = recentlyRcvdOscCmds (this w) + (if accepted w (env, ev) then 1 else 0).
Proof.
  destruct ev as [| | | | | | | |s oscMsg rinfo now1 now2| | |]; try done. intros _.
  destruct (accepted w (env, SocketMessage s oscMsg rinfo now1 now2)) eqn:Hacc.
  - unfold accepted in Hacc. simpl in Hacc.
    apply andb_true_iff in Hacc as [Hs Hfrom].
    apply bool_decide_eq_true_1 in Hs as [b Hs].
    apply bool_decide_eq_true_1 in Hfrom.
    by destruct (accepted_message env s oscMsg rinfo now1 now2 w b Hs Hfrom) as [-> _].
  - unfold exec. rewrite (message_not_accepted _ _ _ _ _ _ _ Hacc). simpl. lia.
Qed.

End message_handler.

Lemma activity_counter_counts_accepted_lemma evs : forall w,
  Forall (fun e : Services * Event => is_message (snd e)) evs ->
  recentlyRcvdOscCmds (this (exec (run evs) w))
  = recentlyRcvdOscCmds (this w) + count_accepted w evs.
Proof.
  intros w Hevs. revert w.
  induction Hevs as [|[env ev] evs Hev _ IH]; intros w.
  - change (exec (run []) w) with w. simpl. lia.
  - unfold run. rewrite exec_for_of_cons. fold (run evs).
    simpl in Hev. rewrite IH, (counter_after_message env ev w Hev),
      (count_accepted_after_message env ev w evs Hev).
    simpl. lia.
Qed.

(** X7. The activity counter counts exactly the accepted messages: over any
    run of parsed messages, [recentlyRcvdOscCmds] grows by the number of
    messages that came for a created socket from a trusted sender, whatever
    their address and arguments; the others leave it alone. *)
Theorem activity_counter_counts_accepted :
  forall (evs : list (Services * Event)) (w : World),
    Forall (fun e : Services * Event => is_message (snd e)) evs ->
    recentlyRcvdOscCmds (this (exec (run evs) w))
    = recentlyRcvdOscCmds (this w) + count_accepted w evs.
Proof. intros evs w. apply activity_counter_counts_accepted_lemma. Qed.

Lemma activity_counter_counts_accepted_witness :
  recentlyRcvdOscCmds (this (exec (run Scenario2.traffic) Scenario.opened)) = 2.
Proof.
  rewrite (activity_counter_counts_accepted Scenario2.traffic Scenario.opened).
  - vm_compute. reflexivity.
  - repeat constructor.
Defined.

(** X8. An accepted message that is not a parameter update leaves the store
    alone: when its address is outside ["/avatar/parameters/"] (and is not
    the avatar change), or when it has no first argument or an undefined
    one, no cell is created or changed and no store event is emitted. *)
Theorem other_messages_leave_store :
  forall (env : Services) (w : World) (s : nat) (oscMsg : OscMessage)
         (rinfo : RemoteInfo) (now1 now2 : Z),
    is_Some (receivedOne w !! s) ->
    rinfo_address rinfo ∈ myAddresses env ->
    address oscMsg <> "/avatar/change" ->
    parseParamFromPath (address oscMsg) = None
      \/ first_value (map arg_value <$> args oscMsg) = Js.Undefined ->
    entries (exec (step env (SocketMessage s oscMsg rinfo now1 now2)) w) = entries w
    /\ store_effects (output (step env (SocketMessage s oscMsg rinfo now1 now2)) w) = [].
Proof.
  intros env w s oscMsg rinfo now1 now2 [b Hs] Hfrom Hc Hquiet.
  unfold step, on_socket, on_message.
  rewrite (bool_decide_eq_true_2 _ Hfrom), (bool_decide_eq_false_2 _ Hc).
  assert (Hrpv : receivedParamValue (parseParamFromPath (address oscMsg))
                   (first_value (map arg_value <$> args oscMsg)) false
                 = ret tt).
  { unfold receivedParamValue. destruct Hquiet as [-> | ->]; [done|].
    by destruct (parseParamFromPath (address oscMsg)). }
  rewrite Hrpv. unfold_monad. rewrite Hs. simpl. rewrite Hs.
  by case_bool_decide; destruct b.
Qed.

Lemma other_messages_leave_store_witness :
  entries (exec (step Scenario.env
                   (SocketMessage 3 Scenario2.tracking_msg Scenario.game 20 20))
             Scenario.live)
  = entries Scenario.live.
Proof.
  apply (other_messages_leave_store Scenario.env Scenario.live 3%nat
           Scenario2.tracking_msg Scenario.game 20 20).
  - exists true. vm_compute. reflexivity.
  - vm_compute. reflexivity.
  - discriminate.
  - left. reflexivity.
Defined.

(** X9. Bulk reconciliation is started by the first accepted message of a
    socket and by every avatar change, and by nothing else in the handler:
    an accepted message issues one bulk request if it is the socket's first
    accepted message, plus one if its address is ["/avatar/change"], and
    afterwards the socket counts as having received a message. *)
Theorem bulk_requests_of_a_message :
  forall (env : Services) (w : World) (s : nat) (first_seen : bool)
         (oscMsg : OscMessage) (rinfo : RemoteInfo) (now1 now2 : Z),
    receivedOne w !! s = Some first_seen ->
    rinfo_address rinfo ∈ myAddresses env ->
    bulk_requests (output (step env (SocketMessage s oscMsg rinfo now1 now2)) w)
    = ((if first_seen then 0 else 1)
       + (if bool_decide (address oscMsg = "/avatar/change") then 1 else 0))%nat
    /\ receivedOne (exec (step env (SocketMessage s oscMsg rinfo now1 now2)) w) !! s
       = Some true.
Proof.
  intros env w s b oscMsg rinfo now1 now2 Hs Hfrom.
  destruct (accepted_message env s oscMsg rinfo now1 now2 w b Hs Hfrom)
    as (_ & _ & _ & Hr & Hb).
  split; [exact Hb|]. cbv zeta in Hr. rewrite Hr.
  destruct b; [exact Hs|apply lookup_insert_eq].
Qed.

Lemma bulk_requests_of_a_message_witness :
  bulk_requests (output (step Scenario.env
                   (SocketMessage 3 (Scenario.float_msg "/avatar/parameters/foo" 1)
                      Scenario.game 10 10)) Scenario.opened) = 1%nat
  /\ bulk_requests (output (step Scenario.env
                   (SocketMessage 3 (Scenario.float_msg "/avatar/parameters/foo" 2)
                      Scenario.game 11 11)) Scenario.live) = 0%nat.
Proof.
  split.
  - apply (bulk_requests_of_a_message Scenario.env Scenario.opened 3%nat false).
    + vm_compute. reflexivity.
    + vm_compute. reflexivity.
  - apply (bulk_requests_of_a_message Scenario.env Scenario.live 3%nat true).
    + vm_compute. reflexivity.
    + vm_compute. reflexivity.
Defined.

(** ** Parameter addresses *)

Lemma prefix_append p s : String.prefix p (p +:+ s) = true.
Proof.
  induction p as [|c p IH]; simpl; [by destruct s|].
  by destruct (ascii_dec c c).
Qed.

Lemma substring_all s : String.substring 0 (String.length s) s = s.
Proof. induction s as [|c s IH]; simpl; [done|]. by rewrite IH. Qed.

Lemma substring_from_append p s :
  Js.substring_from (String.length p) (p +:+ s) = s.
Proof.
  unfold Js.substring_from. induction p as [|c p IH]; simpl.
  - rewrite Nat.sub_0_r. apply substring_all.
  - exact IH.
Qed.

Lemma prefix_inv p s :
  String.prefix p s = true -> s = p +:+ Js.substring_from (String.length p) s.
Proof.
  revert s. induction p as [|c p IH]; intros s; simpl.
  - intros _. unfold Js.substring_from. rewrite Nat.sub_0_r.
    by rewrite substring_all.
  - destruct s as [|d s]; simpl; [done|].
    destruct (ascii_dec c d) as [<-|]; [|done].
    intros H. change (String c s = String c (p +:+ Js.substring_from (String.length p) s)).
    f_equal. exact (IH s H).
Qed.

(** X10. The address [send] writes and the address the message handler
    reads are inverse to each other: ["/avatar/parameters/" + name] parses
    back to [name], every path that parses to [name] is that string, and so
    the message [send] builds for [name] and [v], when it comes in from a
    trusted sender, leaves the cell [name] holding the number [v]. *)
Theorem parameter_address_round_trip :
  forall (name : string),
    parseParamFromPath ("/avatar/parameters/" +:+ name) = Some name
    /\ (forall path, parseParamFromPath path = Some name ->
                     path = "/avatar/parameters/" +:+ name)
    /\ forall (env : Services) (w : World) (s : nat) (v : float)
              (rinfo : RemoteInfo) (now1 now2 : Z),
         is_Some (receivedOne w !! s) ->
         rinfo_address rinfo ∈ myAddresses env ->
         value <$> entries (exec (step env
                     (SocketMessage s (parameter_message name v) rinfo now1 now2)) w)
                   !! name
         = Some (Js.Number v).
Proof.
  intros name.
  assert (Hparse : parseParamFromPath ("/avatar/parameters/" +:+ name) = Some name).
  { unfold parseParamFromPath, Js.startsWith, parameters_prefix.
    rewrite prefix_append. f_equal.
    apply (substring_from_append "/avatar/parameters/" name). }
  split; [exact Hparse|]. split.
  - intros path. unfold parseParamFromPath, Js.startsWith.
    destruct (String.prefix parameters_prefix path) eqn:Hp; [|done].
    intros [= <-]. exact (prefix_inv parameters_prefix path Hp).
  - intros env w s v rinfo now1 now2 Hs Hfrom.
    destruct (message_updates_store env s (parameter_message name v) rinfo now1 now2 w
                Hs Hfrom) as [E _]; [done|done|].
    rewrite E, entries_receivedParamValue.
    change (address (parameter_message name v)) with ("/avatar/parameters/" +:+ name).
    rewrite Hparse. simpl.
    destruct (entries w !! name); by rewrite lookup_insert_eq.
Qed.

Lemma parameter_address_round_trip_witness :
  value <$> entries (exec (step Scenario.env
              (SocketMessage 3 (parameter_message "Speed" 1) Scenario.game 10 10))
              Scenario.opened) !! "Speed"
  = Some (Js.Number 1).
Proof.
  apply (proj2 (proj2 (parameter_address_round_trip "Speed")) Scenario.env
           Scenario.opened 3%nat 1%float Scenario.game 10 10).
  - exists false. vm_compute. reflexivity.
  - vm_compute. reflexivity.
Defined.

(** ** The lifecycle *)

(** X11. [delayRetry] tears everything down, once: the store is emptied
    with one ['clear'], the socket is closed and the OSCQuery server is
    stopped if and only if there was one, the open flag, the bulk token and
    [waitingForBulk] are reset; a second call right after closes and stops
    nothing again. What it does not touch are the suspended [await]s: a
    connect attempt or a bulk request in flight stays in flight. *)
Theorem delayRetry_tears_down_once :
  forall (w : World),
    entries (exec delayRetry w) = ∅
    /\ socketopen (this (exec delayRetry w)) = false
    /\ oscSocket (this (exec delayRetry w)) = None
    /\ oscQuery (this (exec delayRetry w)) = None
    /\ waitingForBulk (this (exec delayRetry w)) = false
    /\ updateBulkAttempt (this (exec delayRetry w)) = None
    /\ output delayRetry w
       = (EmitClear
          :: match oscSocket (this w) with Some s => [SocketClose s] | None => [] end
          ++ match oscQuery (this w) with Some q => [QueryStop q] | None => [] end)%list
    /\ output delayRetry (exec delayRetry w) = [EmitClear]
    /\ awaits (exec delayRetry w) = awaits w.
Proof.
  intros [[? ? ? query sock ? handle ? ? ? ?] ? ? ? ?].
  by destruct query, sock, handle.
Qed.

Section open_flag.

Lemma closed_step env ev :
  not_ready ev -> keeps (fun w => socketopen (this w) = false) (step env ev).
Proof.
  destruct ev; intros Hev; try contradiction; unfold step;
    try solve [keeps_with untouched].
  intros w _. by destruct w as [[? ? ? query sock ? handle ? ? ? ?] ? ? ? ?],
    query, sock, handle.
Qed.

Lemma closed_run evs :
  Forall (fun e : Services * Event => not_ready (snd e)) evs ->
  keeps (fun w => socketopen (this w) = false) (run evs).
Proof.
  induction 1 as [|[env ev] evs Hev _ IH]; [apply keeps_ret|].
  apply keeps_bind; [by apply closed_step|]. intros _. apply IH.
Qed.

End open_flag.

(** X12. Nothing is sent before a socket reports ready: from the
    constructor, and from any state in which the socket is not open (so
    also after a [delayRetry]), over any run with no ['ready'] event every
    call of [send] returns without sending and without changing the
    state. *)
Theorem send_is_silent_until_ready :
  forall (evs : list (Services * Event)) (env : Services) (paramName : string)
         (v : float),
    Forall (fun e : Services * Event => not_ready (snd e)) evs ->
    send env paramName v (exec (run evs) initial) = (tt, exec (run evs) initial, [])
    /\ forall w, socketopen (this w) = false ->
         send env paramName v (exec (run evs) w) = (tt, exec (run evs) w, []).
Proof.
  intros evs env paramName v Hevs.
  assert (Hsend : forall w, socketopen (this w) = false ->
                    send env paramName v w = (tt, w, [])).
  { intros w Hw. unfold send. unfold_monad. simpl. rewrite Hw.
    by destruct (oscSocket (this w)). }
  split.
  - apply Hsend. by apply (closed_run evs Hevs initial).
  - intros w Hw. apply Hsend. by apply (closed_run evs Hevs w).
Qed.

Lemma send_is_silent_until_ready_witness :
  let w := exec (run Scenario.after_reset) (exec delayRetry Scenario.live) in
  send Scenario.env "Speed" 1 w = (tt, w, []).
Proof.
  intros w.
  apply (proj2 (send_is_silent_until_ready Scenario.after_reset Scenario.env "Speed" 1
                  ltac:(repeat constructor))).
  reflexivity.
Defined.

Section reconnecting.

Lemma run_cons env ev evs w w1 out1 :
  step env ev w = (tt, w1, out1) ->
  exec (run ((env, ev) :: evs)) w = exec (run evs) w1
  /\ output (run ((env, ev) :: evs)) w = (out1 ++ output (run evs) w1)%list.
Proof.
  intros Hstep. unfold run. rewrite exec_for_of_cons, output_for_of_cons.
  unfold exec, output. simpl. by rewrite Hstep.
Qed.

Lemma retry_timer_fires env h d w :
  timers w !! h = Some (mkTimer d RetryOpenSocket) ->
  step env (TimerFired h) w
  = (tt,
     Upd.on_awaits (insert (nextId w) AwaitPort)
       (Upd.set_nextId (S (nextId w)) (Upd.on_timers (delete h) w)),
     [GetPort 33776]).
Proof. intros H. unfold step, fire_timer. unfold_monad. by rewrite H. Qed.

Lemma port_found env id localPort w :
  awaits w !! id = Some AwaitPort ->
  step env (PortSettled id (Js.Resolved localPort)) w
  = (tt,
     Upd.on_awaits (insert (S (nextId w)) (AwaitOscQueryStart (nextId w) localPort))
       (Upd.set_nextId (S (S (nextId w)))
          (Upd.on_this (fun c => Upd.set_oscQuery (Some (nextId w))
                                   (Upd.set_port localPort c))
             (Upd.on_awaits (delete id) w))),
     [Log (LogSelectedPort localPort); Log LogStartingOscQuery;
      QueryAddMethod (nextId w) "/avatar/change"; QueryStart (nextId w) localPort]).
Proof. intros H. unfold step. unfold_monad. by rewrite H. Qed.

Lemma query_started env id q localPort hostInfo w :
  awaits w !! id = Some (AwaitOscQueryStart q localPort) ->
  step env (OscQueryStartSettled id (Js.Resolved hostInfo) None) w
  = (tt,
     Upd.on_receivedOne (insert (nextId w) false)
       (Upd.on_this (Upd.set_oscSocket (Some (nextId w)))
          (Upd.set_nextId (S (nextId w)) (Upd.on_awaits (delete id) w))),
     [Log (LogOscQueryStarted (oscPort hostInfo)); Log LogStartingOsc;
      SocketOpen (nextId w) localPort]).
Proof. intros H. unfold step. unfold_monad. by rewrite H. Qed.

Lemma socket_ready env s b w :
  receivedOne w !! s = Some b ->
  step env (SocketReady s) w
  = (tt,
     Upd.on_this (fun c => Upd.set_lastPacket 0
                    (Upd.set_recentlyRcvdOscCmds 0 (Upd.set_socketopen true c))) w,
     [Log LogOpen; Log LogWaitingFirst]).
Proof. intros H. unfold step, on_socket. unfold_monad. by rewrite H. Qed.

End reconnecting.

(** X13. The retry cycle reopens the connection: after a [delayRetry] in
    any state, when the retry timer fires, the port lookup resolves, the
    OSCQuery server starts and the new socket reports ready, the instance
    is open again on that port with a new socket and a new OSCQuery server,
    with an empty store, having emitted the start-up sequence in order. *)
Theorem retry_cycle_reopens :
  forall (w : World) (env : Services) (localPort : Z) (hostInfo : HostInfo),
    let n := nextId w in
    let w' := exec (run (reconnect env n localPort hostInfo)) (exec delayRetry w) in
    socketopen (this w') = true
    /\ oscSocket (this w') = Some (S (S (S (S n))))
    /\ oscQuery (this w') = Some (S (S n))
    /\ port (this w') = localPort
    /\ entries w' = ∅
    /\ output (run (reconnect env n localPort hostInfo)) (exec delayRetry w)
       = [GetPort 33776;
          Log (LogSelectedPort localPort); Log LogStartingOscQuery;
          QueryAddMethod (S (S n)) "/avatar/change"; QueryStart (S (S n)) localPort;
          Log (LogOscQueryStarted (oscPort hostInfo)); Log LogStartingOsc;
          SocketOpen (S (S (S (S n)))) localPort;
          Log LogOpen; Log LogWaitingFirst].
Proof.
  intros w env localPort hostInfo n w'. subst w'.
  assert (H0 : timers (exec delayRetry w) !! n = Some (mkTimer 1000 RetryOpenSocket)
               /\ nextId (exec delayRetry w) = S n
               /\ entries (exec delayRetry w) = ∅).
  { subst n. destruct w as [[? ? ? query sock ? handle ? ? ? ?] ? ? ? ?].
    destruct query, sock, handle; simpl; by rewrite lookup_insert_eq. }
  destruct H0 as (Htimer & Hnext & Hentries).
  set (w0 := exec delayRetry w) in *.
  unfold reconnect.
  destruct (run_cons env _ [ (env, PortSettled (S n) (Js.Resolved localPort));
              (env, OscQueryStartSettled (S (S (S n))) (Js.Resolved hostInfo) None);
              (env, SocketReady (S (S (S (S n))))) ] w0 _ _
              (retry_timer_fires env n 1000 w0 Htimer)) as [E1 O1].
  rewrite E1, O1, Hnext. clear E1 O1.
  set (w1 := Upd.on_awaits _ _).
  assert (H1 : awaits w1 !! S n = Some AwaitPort) by apply lookup_insert_eq.
  destruct (run_cons env _ [
              (env, OscQueryStartSettled (S (S (S n))) (Js.Resolved hostInfo) None);
              (env, SocketReady (S (S (S (S n))))) ] w1 _ _
              (port_found env (S n) localPort w1 H1)) as [E2 O2].
  rewrite E2, O2. clear E2 O2.
  change (nextId w1) with (S (S n)).
  set (w2 := Upd.on_awaits _ (Upd.set_nextId _ _)).
  assert (H2 : awaits w2 !! S (S (S n)) = Some (AwaitOscQueryStart (S (S n)) localPort))
    by apply lookup_insert_eq.
  destruct (run_cons env _ [ (env, SocketReady (S (S (S (S n))))) ] w2 _ _
              (query_started env _ _ localPort hostInfo w2 H2)) as [E3 O3].
  rewrite E3, O3. clear E3 O3.
  change (nextId w2) with (S (S (S (S n)))).
  set (w3 := Upd.on_receivedOne _ _).
  assert (H3 : receivedOne w3 !! S (S (S (S n))) = Some false)
    by apply lookup_insert_eq.
  destruct (run_cons env _ [] w3 _ _ (socket_ready env _ false w3 H3)) as [E4 O4].
  rewrite E4, O4. clear E4 O4.
  change (exec (run []) ?x) with x. change (output (run []) ?x) with (@nil Effect).
  repeat split; try reflexivity.
  exact Hentries.
Qed.

(** ** Bulk reconciliation *)

Section bulk.

Lemma merge_lookup k (nodes : list Node) : forall w,
  entries (exec (for_of nodes (fun node =>
      receivedParamValue (parseParamFromPath (default "" (full_path node)))
        (first_value (arguments node)) true)) w) !! k
  = match entries w !! k with
    | Some c => Some c
    | None => (fun v => mkOscValue v 0) <$> bulk_value k nodes
    end.
Proof.
  induction nodes as [|node nodes IH]; intros w.
  - change (exec (for_of [] _) w) with w. simpl. by destruct (entries w !! k).
  - rewrite exec_for_of_cons, IH, entries_receivedParamValue. simpl bulk_value.
    destruct (parseParamFromPath (default "" (full_path node))) as [p|] eqn:Hp.
    + destruct (Js.is_undefined (first_value (arguments node))) eqn:Hu.
      { by rewrite andb_false_r. }
      rewrite andb_true_r.
      destruct (entries w !! p) as [c0|] eqn:Hlook.
      * case_bool_decide as Hk; [|done]. injection Hk as ->. by rewrite Hlook.
      * case_bool_decide as Hk.
        -- injection Hk as ->. by rewrite lookup_insert_eq, Hlook.
        -- rewrite lookup_insert_ne by congruence. done.
    + by rewrite (bool_decide_eq_false_2 (None = Some k)).
Qed.

Lemma awaits_resume tok settled w :
  awaits (exec (_updateBulk_resume tok settled) w) = awaits w.
Proof.
  assert (H : keeps (fun w' => awaits w' = awaits w) (_updateBulk_resume tok settled)).
  { unfold _updateBulk_resume, updateBulk_catch, setTimeout.
    keeps_with untouched. }
  by apply H.
Qed.

Lemma awaits_settle id settled w :
  match awaits (exec (settle_bulk id settled) w) !! id with
  | Some (AwaitBulk _) => False
  | _ => True
  end.
Proof.
  unfold settle_bulk. rewrite exec_bind. change (exec get w) with w.
  change (fst (fst (get w))) with w.
  destruct (awaits w !! id) as [[| |tok]|] eqn:Hid.
  - change (exec (ret tt) w) with w. by rewrite Hid.
  - change (exec (ret tt) w) with w. by rewrite Hid.
  - rewrite exec_bind, awaits_resume. simpl. by rewrite lookup_delete_eq.
  - change (exec (ret tt) w) with w. by rewrite Hid.
Qed.

End bulk.

(** X14. The answer of the current bulk attempt is merged name by name:
    every name that has a cell keeps it, and a name without a cell gets the
    first defined value the answer holds for it, with delta 0, or stays
    absent if the answer holds none. The request is no longer pending and
    [waitingForBulk] is cleared. *)
Theorem bulk_answer_is_merged :
  forall (env : Services) (w : World) (id tok : nat) (nodes : list Node) (k : string),
    awaits w !! id = Some (AwaitBulk tok) ->
    updateBulkAttempt (this w) = Some tok ->
    let w' := exec (step env (BulkSettled id (Js.Resolved (Some nodes)))) w in
    entries w' !! k
    = match entries w !! k with
      | Some c => Some c
      | None => (fun v => mkOscValue v 0) <$> bulk_value k nodes
      end
    /\ waitingForBulk (this w') = false
    /\ awaits w' !! id = None.
Proof.
  intros env w id tok nodes k Hid Htok w'. subst w'.
  assert (E : exec (step env (BulkSettled id (Js.Resolved (Some nodes)))) w
              = exec (_updateBulk_resume tok (Js.Resolved (Some nodes)))
                  (Upd.on_awaits (delete id) w)).
  { unfold step, settle_bulk. rewrite exec_bind.
    change (exec get w) with w. change (fst (fst (get w))) with w.
    rewrite Hid. by rewrite exec_bind. }
  rewrite E. split; [|split].
  - unfold _updateBulk_resume. rewrite exec_bind.
    change (exec (isStillValid tok) ?x) with x.
    change (fst (fst (isStillValid tok (Upd.on_awaits (delete id) w))))
      with (bool_decide (updateBulkAttempt (this w) = Some tok)).
    rewrite (bool_decide_eq_true_2 _ Htok), exec_bind.
    change (entries (exec updateBulk_done ?x)) with (entries x).
    by rewrite merge_lookup.
  - unfold _updateBulk_resume. by rewrite !exec_bind.
  - rewrite awaits_resume. apply lookup_delete_eq.
Qed.

Lemma bulk_answer_is_merged_witness :
  let w' := exec (step Scenario.env
                    (BulkSettled 5 (Js.Resolved (Some Scenario3.bulk_nodes))))
              Scenario.live in
  entries w' !! "bar" = Some (mkOscValue (Js.Number 7) 0)
  /\ entries w' !! "foo" = Some (mkOscValue (Js.Number 1) 0).
Proof.
  intros w'. subst w'.
  assert (Hid : awaits Scenario.live !! 5%nat = Some (AwaitBulk 4))
    by (vm_compute; reflexivity).
  assert (Htok : updateBulkAttempt (this Scenario.live) = Some 4%nat)
    by (vm_compute; reflexivity).
  split.
  - rewrite (proj1 (bulk_answer_is_merged Scenario.env Scenario.live 5%nat 4%nat
                      Scenario3.bulk_nodes "bar" Hid Htok)).
    vm_compute. reflexivity.
  - rewrite (proj1 (bulk_answer_is_merged Scenario.env Scenario.live 5%nat 4%nat
                      Scenario3.bulk_nodes "foo" Hid Htok)).
    vm_compute. reflexivity.
Defined.

(** X15. A failed bulk request of the current attempt is retried after
    100 ms: when the request is rejected or resolves to [null], nothing is
    merged and no request is issued at once, a 100 ms timer is set, and
    when that timer fires with the attempt still current exactly one new
    request is issued for the same attempt, with its own ten second
    timeout. *)
Theorem failed_fetch_is_retried :
  forall (env env' : Services) (w : World) (id tok : nat)
         (settled : Js.Settled (option (list Node))),
    awaits w !! id = Some (AwaitBulk tok) ->
    updateBulkAttempt (this w) = Some tok ->
    fetch_failed settled ->
    let w1 := exec (step env (BulkSettled id settled)) w in
    let w2 := exec (step env' (TimerFired (nextId w))) w1 in
    entries w1 = entries w
    /\ bulk_requests (output (step env (BulkSettled id settled)) w) = 0%nat
    /\ timers w1 !! nextId w = Some (mkTimer 100 (BulkBackoff tok))
    /\ output (step env' (TimerFired (nextId w))) w1 = [GetBulk]
    /\ awaits w2 !! S (nextId w) = Some (AwaitBulk tok)
    /\ timers w2 !! S (S (nextId w))
       = Some (mkTimer 10000 (BulkFetchTimeout (S (nextId w))))
    /\ updateBulkAttempt (this w2) = Some tok.
Proof.
  intros env env' w id tok settled Hid Htok Hfail w1 w2.
  assert (E1 : exists e,
             step env (BulkSettled id settled) w
             = (tt,
                Upd.on_timers (insert (nextId w) (mkTimer 100 (BulkBackoff tok)))
                  (Upd.set_nextId (S (nextId w)) (Upd.on_awaits (delete id) w)),
                [Log (LogBulkError e)])).
  { unfold step, settle_bulk. unfold_monad. rewrite Hid.
    destruct settled as [[nodes|]|e]; [done|eexists; reflexivity..]. }
  destruct E1 as [e E1].
  assert (Ew1 : w1 = Upd.on_timers (insert (nextId w) (mkTimer 100 (BulkBackoff tok)))
                  (Upd.set_nextId (S (nextId w)) (Upd.on_awaits (delete id) w))).
  { subst w1. unfold exec. by rewrite E1. }
  assert (Ht : timers w1 !! nextId w = Some (mkTimer 100 (BulkBackoff tok))).
  { rewrite Ew1. apply lookup_insert_eq. }
  assert (E2 : step env' (TimerFired (nextId w)) w1
               = (tt,
                  Upd.on_timers
                    (insert (S (S (nextId w)))
                       (mkTimer 10000 (BulkFetchTimeout (S (nextId w)))))
                    (Upd.set_nextId (S (S (S (nextId w))))
                       (Upd.on_awaits (insert (S (nextId w)) (AwaitBulk tok))
                          (Upd.set_nextId (S (S (nextId w)))
                             (Upd.on_timers (delete (nextId w)) w1)))),
                  [GetBulk])).
  { unfold step, fire_timer. unfold_monad. rewrite Ht. simpl.
    unfold updateBulk_retry, isStillValid. unfold_monad. simpl.
    assert (Hvalid : updateBulkAttempt (this w1) = Some tok) by (by rewrite Ew1).
    rewrite (bool_decide_eq_true_2 _ Hvalid). simpl.
    assert (Hn : nextId w1 = S (nextId w)) by (by rewrite Ew1).
    by rewrite Hn. }
  assert (Ew2 : w2 = snd (fst (step env' (TimerFired (nextId w)) w1))) by done.
  rewrite E2 in Ew2. simpl in Ew2.
  split; [by rewrite Ew1|]. split; [unfold output; by rewrite E1|].
  split; [exact Ht|]. split; [unfold output; by rewrite E2|].
  rewrite Ew2. split; [apply lookup_insert_eq|]. split; [apply lookup_insert_eq|].
  simpl. by rewrite Ew1.
Qed.

Lemma failed_fetch_is_retried_witness :
  let w1 := exec (step Scenario.env (BulkSettled 5 (Js.Rejected "ECONNREFUSED")))
              Scenario.live in
  timers w1 !! 7%nat = Some (mkTimer 100 (BulkBackoff 4))
  /\ output (step Scenario.env (TimerFired 7)) w1 = [GetBulk].
Proof.
  intros w1. subst w1.
  assert (Hid : awaits Scenario.live !! 5%nat = Some (AwaitBulk 4))
    by (vm_compute; reflexivity).
  assert (Htok : updateBulkAttempt (this Scenario.live) = Some 4%nat)
    by (vm_compute; reflexivity).
  pose proof (failed_fetch_is_retried Scenario.env Scenario.env Scenario.live 5%nat
                4%nat (Js.Rejected "ECONNREFUSED") Hid Htok I) as H.
  cbv zeta in H. destruct H as (_ & _ & Ht & Ho & _).
  split; [exact Ht|exact Ho].
Defined.

(** X16. A bulk request settles once: after its answer, its rejection or
    its timeout has been handled, a second settlement of the same request
    does nothing at all, and its ten second timer, which is never
    cancelled, only leaves the pending set when it fires later. *)
Theorem bulk_request_settles_once :
  forall (env env' : Services) (w : World) (id : nat)
         (settled settled' : Js.Settled (option (list Node))),
    let w1 := exec (step env (BulkSettled id settled)) w in
    step env' (BulkSettled id settled') w1 = (tt, w1, [])
    /\ forall t d, timers w1 !! t = Some (mkTimer d (BulkFetchTimeout id)) ->
         step env' (TimerFired t) w1 = (tt, Upd.on_timers (delete t) w1, []).
Proof.
  intros env env' w id settled settled' w1.
  assert (Hgone : match awaits w1 !! id with
                  | Some (AwaitBulk _) => False
                  | _ => True
                  end) by apply (awaits_settle id settled w).
  split.
  - unfold step, settle_bulk. unfold_monad.
    by destruct (awaits w1 !! id) as [[| |tok]|].
  - intros t d Ht. unfold step, fire_timer. unfold_monad. rewrite Ht. simpl.
    unfold settle_bulk. unfold_monad. simpl.
    by destruct (awaits w1 !! id) as [[| |tok]|].
Qed.

Lemma bulk_request_settles_once_witness :
  let w1 := exec (step Scenario.env (BulkSettled 5 Scenario.bulk_answer)) Scenario.live in
  step Scenario.env (TimerFired 6) w1 = (tt, Upd.on_timers (delete 6%nat) w1, []).
Proof.
  intros w1.
  apply (proj2 (bulk_request_settles_once Scenario.env Scenario.env Scenario.live 5%nat
                  Scenario.bulk_answer Scenario.bulk_answer) 6%nat 10000).
  vm_compute. reflexivity.
Defined.

(** X17. When a bulk answer arrives, [waitingForBulk] is cleared whether or
    not the attempt is still the current one: the answer of an attempt that
    an avatar change superseded clears the flag while the newer attempt's
    request is still pending, and leaves the current token and every other
    pending request as they are. *)
Theorem any_answer_clears_waitingForBulk :
  forall (env : Services) (w : World) (id tok : nat) (nodes : list Node),
    awaits w !! id = Some (AwaitBulk tok) ->
    let w' := exec (step env (BulkSettled id (Js.Resolved (Some nodes)))) w in
    waitingForBulk (this w') = false
    /\ updateBulkAttempt (this w') = updateBulkAttempt (this w)
    /\ forall id', id' <> id -> awaits w' !! id' = awaits w !! id'.
Proof.
  intros env w id tok nodes Hid w'. subst w'.
  assert (E : exec (step env (BulkSettled id (Js.Resolved (Some nodes)))) w
              = exec (_updateBulk_resume tok (Js.Resolved (Some nodes)))
                  (Upd.on_awaits (delete id) w)).
  { unfold step, settle_bulk. rewrite exec_bind.
    change (exec get w) with w. change (fst (fst (get w))) with w.
    rewrite Hid. by rewrite exec_bind. }
  rewrite E. split; [|split].
  - unfold _updateBulk_resume. by rewrite !exec_bind.
  - assert (H : keeps (fun w0 => updateBulkAttempt (this w0) = updateBulkAttempt (this w))
                  (_updateBulk_resume tok (Js.Resolved (Some nodes)))).
    { unfold _updateBulk_resume. keeps_with untouched. }
    by apply H.
  - intros id' Hne. rewrite awaits_resume. simpl. by rewrite lookup_delete_ne.
Qed.

Lemma any_answer_clears_waitingForBulk_witness :
  let w' := exec (step Scenario.env (BulkSettled 5 (Js.Resolved (Some Scenario3.bulk_nodes))))
              Scenario3.avatar_changed in
  waitingForBulk (this Scenario3.avatar_changed) = true
  /\ updateBulkAttempt (this Scenario3.avatar_changed) = Some 7%nat
  /\ awaits Scenario3.avatar_changed !! 8%nat = Some (AwaitBulk 7)
  /\ waitingForBulk (this w') = false
  /\ awaits w' !! 8%nat = awaits Scenario3.avatar_changed !! 8%nat.
Proof.
  intros w'. subst w'.
  assert (Hid : awaits Scenario3.avatar_changed !! 5%nat = Some (AwaitBulk 4))
    by (vm_compute; reflexivity).
  pose proof (any_answer_clears_waitingForBulk Scenario.env Scenario3.avatar_changed
                5%nat 4%nat Scenario3.bulk_nodes Hid) as H.
  cbv zeta in H. destruct H as (Hw & _ & Ha).
  split; [vm_compute; reflexivity|]. split; [vm_compute; reflexivity|].
  split; [vm_compute; reflexivity|]. split; [exact Hw|].
  apply Ha. discriminate.
Defined.

(** ** The activity report *)

Section activity.

Lemma open_kept_by_message env ev (o : bool) :
  is_message ev -> keeps (fun w => socketopen (this w) = o) (step env ev).
Proof.
  destruct ev; intros Hev; try contradiction. unfold step. keeps_with untouched.
Qed.

Lemma open_kept_by_messages evs (o : bool) :
  Forall (fun e : Services * Event => is_message (snd e)) evs ->
  keeps (fun w => socketopen (this w) = o) (run evs).
Proof.
  induction 1 as [|[env ev] evs Hev _ IH]; [apply keeps_ret|].
  apply keeps_bind; [by apply open_kept_by_message|]. intros _. apply IH.
Qed.

End activity.

(** X18. The periodic report tells the number of accepted messages: if the
    socket is open and the counter is zero (as after ['ready'] or after a
    report), then after any run of parsed messages the next interval tick
    logs the number of accepted ones when there were any, logs nothing
    when there were none, and leaves the counter at zero. *)
Theorem interval_reports_accepted_messages :
  forall (evs : list (Services * Event)) (env : Services) (w : World),
    Forall (fun e : Services * Event => is_message (snd e)) evs ->
    socketopen (this w) = true ->
    recentlyRcvdOscCmds (this w) = 0 ->
    let w' := exec (run evs) w in
    output (step env IntervalFired) w'
    = (if 0 <? count_accepted w evs
       then [Log (LogReceivedCount (count_accepted w evs))]
       else [])
    /\ recentlyRcvdOscCmds (this (exec (step env IntervalFired) w')) = 0.
Proof.
  intros evs env w Hevs Hopen Hzero w'.
  assert (Hc : recentlyRcvdOscCmds (this w') = count_accepted w evs).
  { subst w'. rewrite (activity_counter_counts_accepted_lemma evs w Hevs). lia. }
  assert (Ho : socketopen (this w') = true)
    by (by apply (open_kept_by_messages evs true Hevs w)).
  clearbody w'. unfold step, on_interval. unfold_monad. simpl. rewrite Ho. simpl. rewrite Hc.
  destruct (Z.ltb_spec 0 (count_accepted w evs)); simpl; [done|].
  split; [done|]. rewrite Hc.
  assert (0 <= count_accepted w evs); [|lia].
  clear. induction evs as [|e evs IH]; simpl; [lia|].
  destruct (accepted w e); lia.
Qed.

Lemma interval_reports_accepted_messages_witness :
  output (step Scenario.env IntervalFired) (exec (run Scenario2.traffic) Scenario.opened)
  = [Log (LogReceivedCount 2)].
Proof.
  apply (interval_reports_accepted_messages Scenario2.traffic Scenario.env Scenario.opened).
  - repeat constructor.
  - reflexivity.
  - reflexivity.
Defined.

(** ** Proxy entries *)

Lemma split_nonempty c s : Js.split c s <> [].
Proof.
  destruct s as [|d s]; simpl; [done|].
  destruct (Ascii.eqb c d); [done|]. by destruct (Js.split c s).
Qed.

Lemma split_append c a b :
  Js.split c (a +:+ String c b) = (Js.split c a ++ Js.split c b)%list.
Proof.
  induction a as [|d a IH]; simpl.
  - by rewrite Ascii.eqb_refl.
  - destruct (Ascii.eqb c d); rewrite IH; [done|].
    pose proof (split_nonempty c a). by destruct (Js.split c a).
Qed.

Lemma proxy_targets_append a b :
  proxy_targets (a +:+ String "," b) = (proxy_targets a ++ proxy_targets b)%list.
Proof. unfold proxy_targets. by rewrite split_append, map_app, filter_app. Qed.

(** The ['data'] handler as the socket calls it. *)
Lemma on_data_output env msg w cfg :
  osc_proxy env = Some cfg ->
  listener (on_data env msg) w = (tt, w, forwarding msg (proxy_targets cfg)).
Proof.
  intros Hcfg. unfold on_data. rewrite Hcfg. case_bool_decide as He.
  - by subst cfg.
  - apply forward_loop.
Qed.

(** After a refused port nothing is sent. *)
Lemma forwarding_refused msg before after :
  Exists (fun target => valid_port (snd target) = false) before ->
  forwarding msg (before ++ after) = forwarding msg before.
Proof.
  induction before as [|[a n] before IH]; intros H; [by inversion H|].
  simpl. destruct (valid_port n) eqn:Hn; [|done].
  rewrite IH; [done|]. inversion H as [? ? Hhead|]; subst; [|done].
  simpl in Hhead. congruence.
Qed.

(** X19. Raw forwarding goes entry by entry until a port is refused: when
    [udpClient.send] accepts every port of [a], what the handler does for
    the proxy configuration ["a,b"] is what it does for [a] followed by
    what it does for [b]; when it refuses a port of [a], the entries of
    [b] are never reached. An entry that names no port (an empty entry, a
    word, a port of zero) adds nothing and takes nothing away, and the
    handler never changes the state. *)
Theorem forwarding_is_per_entry :
  forall (trusted : gset string) (peer : option (string * Z)) (msg : list byte)
         (w : World) (a b : string),
    (Forall (fun target => valid_port (snd target) = true) (proxy_targets a) ->
     output (listener (on_data (mkServices trusted (Some (a +:+ String "," b)) peer) msg)) w
     = (output (listener (on_data (mkServices trusted (Some a) peer) msg)) w
        ++ output (listener (on_data (mkServices trusted (Some b) peer) msg)) w)%list)
    /\ (Exists (fun target => valid_port (snd target) = false) (proxy_targets a) ->
        output (listener (on_data (mkServices trusted (Some (a +:+ String "," b)) peer) msg)) w
        = output (listener (on_data (mkServices trusted (Some a) peer) msg)) w)
    /\ exec (listener (on_data (mkServices trusted (Some (a +:+ String "," b)) peer) msg)) w
       = w
    /\ (proxy_targets b = [] ->
        output (listener (on_data (mkServices trusted (Some (a +:+ String "," b)) peer) msg)) w
        = output (listener (on_data (mkServices trusted (Some a) peer) msg)) w).
Proof.
  intros trusted peer msg w a b. unfold output, exec.
  rewrite (on_data_output (mkServices trusted (Some (a +:+ String "," b)) peer) msg w
             _ eq_refl).
  rewrite (on_data_output (mkServices trusted (Some a) peer) msg w _ eq_refl).
  rewrite (on_data_output (mkServices trusted (Some b) peer) msg w _ eq_refl).
  simpl. rewrite proxy_targets_append.
  split; [|split; [|split; [done|]]].
  - intros Hvalid. rewrite (forwarding_app _ _ _ Hvalid).
    rewrite <- (app_nil_r (proxy_targets a)) at 2.
    by rewrite (forwarding_app _ _ [] Hvalid), app_nil_r.
  - apply forwarding_refused.
  - intros ->. by rewrite app_nil_r.
Qed.

Lemma forwarding_is_per_entry_witness :
  output (listener (on_data (mkServices ∅ (Some ("9002" +:+ String "," "70000,9003")) None)
                      [x2f])) Scenario.opened
  = [UdpClientSend [x2f] 9002 "127.0.0.1"; Uncaught ERR_SOCKET_BAD_PORT].
Proof.
  rewrite (proj1 (forwarding_is_per_entry ∅ None [x2f] Scenario.opened
                    "9002" "70000,9003")).
  - reflexivity.
  - repeat constructor.
Defined.

(** * The first revision *)

Section legacy_retry.

Lemma legacy_delayRetry_timers st :
  Legacy.retry_handle_inv st ->
  Legacy.timers (fst (Legacy.delayRetry st)) = {[ Legacy.nextId st := 1000 ]}.
Proof.
  intros H. unfold Legacy.delayRetry. simpl.
  apply map_eq. intros id.
  destruct (decide (Legacy.nextId st = id)) as [<-|Hne].
  - by rewrite lookup_insert_eq, lookup_singleton_eq.
  - rewrite lookup_insert_ne, lookup_singleton_ne by done.
    destruct (Legacy.retryTimeout st) as [h|] eqn:Hh.
    + destruct (decide (h = id)) as [->|Hne']; [apply lookup_delete_eq|].
      rewrite lookup_delete_ne by done.
      destruct (Legacy.timers st !! id) as [d|] eqn:Hid; [|done].
      specialize (H id d Hid). congruence.
    + destruct (Legacy.timers st !! id) as [d|] eqn:Hid; [|done].
      specialize (H id d Hid). congruence.
Qed.

Lemma legacy_inv_delayRetry st :
  Legacy.retry_handle_inv st -> Legacy.retry_handle_inv (fst (Legacy.delayRetry st)).
Proof.
  intros H id d. rewrite (legacy_delayRetry_timers st H). simpl.
  intros Hid. apply lookup_singleton_Some in Hid as [<- _]. done.
Qed.

Lemma legacy_inv_step cfg ev st :
  Legacy.retry_handle_inv st -> Legacy.retry_handle_inv (fst (Legacy.step cfg ev st)).
Proof.
  intros H. destruct ev as [id| |s|s e|s msg|s oscMsg now| |paramName v|]; simpl.
  - unfold Legacy.fire_timer. destruct (Legacy.timers st !! id); [|done].
    intros id' d'. simpl. intros Hid. apply lookup_delete_Some in Hid as [_ Hid].
    by apply (H id' d').
  - unfold Legacy.on_interval. by destruct (0 <? Legacy.recentlyRcvdOscCmds st).
  - unfold Legacy.on_socket. by destruct (Legacy.receivedOne st !! s).
  - unfold Legacy.on_socket. destruct (Legacy.receivedOne st !! s); [|done].
    unfold Legacy.on_error.
    match goal with
    | |- context [Legacy.delayRetry ?st1] =>
        pose proof (legacy_inv_delayRetry st1 H) as H1;
        destruct (Legacy.delayRetry st1) as [st2 out]
    end.
    exact H1.
  - unfold Legacy.on_socket, Legacy.on_data.
    destruct (Legacy.receivedOne st !! s); [|done].
    destruct (Legacy.osc_proxy cfg); [|done]. by case_bool_decide.
  - unfold Legacy.on_socket, Legacy.on_message.
    destruct (Legacy.receivedOne st !! s); [|done].
    repeat case_bool_decide; try done.
    destruct (args oscMsg) as [[|arg rest]|]; try done.
    by destruct (Js.startsWith _ _).
  - by apply legacy_inv_delayRetry.
  - unfold Legacy.send. destruct (Legacy.socket st); [|done].
    by destruct (Legacy.socketopen st).
  - done.
Qed.

Lemma legacy_inv_run evs : forall st,
  Legacy.retry_handle_inv st -> Legacy.retry_handle_inv (fst (Legacy.run evs st)).
Proof.
  induction evs as [|[cfg ev] evs IH]; intros st H; [done|].
  simpl. pose proof (legacy_inv_step cfg ev st H) as H1.
  destruct (Legacy.step cfg ev st) as [st1 out1].
  specialize (IH st1 H1). by destruct (Legacy.run evs st1) as [st2 out2].
Qed.

End legacy_retry.

(** X20. In the first revision a socket error leads into the retry cycle:
    in every reachable state, the ['error'] event of a created socket logs
    the error, closes the socket if there is one, marks the connection as
    not open and leaves exactly one retry timer pending, of 1000 ms, while
    the store is kept as it is; when that timer fires, [openSocket] runs
    again on the configured port. *)
Theorem legacy_error_schedules_retry :
  forall (cfg0 cfg cfg' : Legacy.Config) (evs : list (Legacy.Config * Legacy.Event))
         (s : nat) (e : Js.Error),
    let st := fst (Legacy.run evs (Legacy.initial cfg0)) in
    is_Some (Legacy.receivedOne st !! s) ->
    let st1 := fst (Legacy.step cfg (Legacy.SocketError s e) st) in
    Legacy.socketopen st1 = false
    /\ Legacy.socket st1 = None
    /\ Legacy.timers st1 = {[ Legacy.nextId st := 1000 ]}
    /\ Legacy.retryTimeout st1 = Some (Legacy.nextId st)
    /\ Legacy._entries st1 = Legacy._entries st
    /\ snd (Legacy.step cfg (Legacy.SocketError s e) st)
       = (Legacy.Log (Legacy.Error e)
          :: match Legacy.socket st with
             | Some old => [Legacy.SocketClose old]
             | None => []
             end)
    /\ snd (Legacy.step cfg' (Legacy.TimerFired (Legacy.nextId st)) st1)
       = [Legacy.Log (Legacy.OpeningServer (Legacy.listen_port cfg'));
          Legacy.SocketOpen (S (Legacy.nextId st)) (Legacy.listen_port cfg')].
Proof.
  intros cfg0 cfg cfg' evs s e st [b Hs] st1.
  assert (Hinv : Legacy.retry_handle_inv st).
  { apply legacy_inv_run. intros id d Hid.
    change (Legacy.timers (Legacy.initial cfg0)) with (∅ : gmap nat Z) in Hid.
    by rewrite lookup_empty in Hid. }
  assert (E : Legacy.step cfg (Legacy.SocketError s e) st
              = (fst (Legacy.delayRetry
                   (Legacy.mkState (Legacy._entries st) (Legacy.recentlyRcvdOscCmds st)
                      (Legacy.lastReceiveTime st) (Legacy.socket st) false
                      (Legacy.retryTimeout st) (Legacy.timers st)
                      (Legacy.receivedOne st) (Legacy.nextId st))),
                 Legacy.Log (Legacy.Error e)
                 :: match Legacy.socket st with
                    | Some old => [Legacy.SocketClose old]
                    | None => []
                    end)).
  { simpl. unfold Legacy.on_socket. by rewrite Hs. }
  assert (Ht : Legacy.timers st1 = {[ Legacy.nextId st := 1000 ]}).
  { subst st1. rewrite E.
    apply (legacy_delayRetry_timers
             (Legacy.mkState (Legacy._entries st) (Legacy.recentlyRcvdOscCmds st)
                (Legacy.lastReceiveTime st) (Legacy.socket st) false
                (Legacy.retryTimeout st) (Legacy.timers st)
                (Legacy.receivedOne st) (Legacy.nextId st))).
    exact Hinv. }
  assert (E1 : st1 = fst (Legacy.delayRetry
                   (Legacy.mkState (Legacy._entries st) (Legacy.recentlyRcvdOscCmds st)
                      (Legacy.lastReceiveTime st) (Legacy.socket st) false
                      (Legacy.retryTimeout st) (Legacy.timers st)
                      (Legacy.receivedOne st) (Legacy.nextId st)))).
  { subst st1. by rewrite E. }
  split; [by rewrite E1|]. split; [by rewrite E1|]. split; [exact Ht|].
  split; [by rewrite E1|]. split; [by rewrite E1|]. split; [by rewrite E|].
  simpl. unfold Legacy.fire_timer. rewrite Ht, lookup_singleton_eq.
  simpl. by rewrite E1.
Qed.

Lemma legacy_error_schedules_retry_witness :
  let cfg := Legacy.mkConfig (Some "9100") None in
  let st1 := fst (Legacy.step cfg (Legacy.SocketError 0 "EADDRINUSE") (Legacy.initial cfg)) in
  Legacy.timers st1 = {[ 1%nat := 1000 ]}
  /\ snd (Legacy.step cfg (Legacy.TimerFired 1) st1)
     = [Legacy.Log (Legacy.OpeningServer 9100); Legacy.SocketOpen 2 9100].
Proof.
  intros cfg st1.
  assert (Hs : is_Some (Legacy.receivedOne (fst (Legacy.run [] (Legacy.initial cfg)))
                          !! 0%nat)).
  { exists false. vm_compute. reflexivity. }
  pose proof (legacy_error_schedules_retry cfg cfg cfg [] 0%nat "EADDRINUSE" Hs) as H.
  cbv zeta in H. destruct H as (_ & _ & Ht & _ & _ & _ & Ho).
  split; [exact Ht|exact Ho].
Defined.

Section revisions.

Lemma includes_trimStart c s :
  Js.includes c s = false -> Js.includes c (Js.trimStart s) = false.
Proof.
  induction s as [|d s IH]; [done|]. intros H.
  change (Js.trimStart (String d s))
    with (if Js.is_space d then Js.trimStart s else String d s).
  destruct (Js.is_space d); [|exact H].
  apply IH. simpl in H. by destruct (Ascii.eqb c d).
Qed.

Lemma includes_trimEnd c s :
  Js.includes c s = false -> Js.includes c (Js.trimEnd s) = false.
Proof.
  induction s as [|d s IH]; [done|]. intros H.
  assert (Hd : Ascii.eqb c d = false /\ Js.includes c s = false).
  { simpl in H. by destruct (Ascii.eqb c d). }
  destruct Hd as [Hd Hs]. specialize (IH Hs).
  change (Js.trimEnd (String d s))
    with (match Js.trimEnd s with
          | EmptyString => if Js.is_space d then EmptyString else String d EmptyString
          | String e r => String d (String e r)
          end).
  destruct (Js.trimEnd s) as [|e r].
  - destruct (Js.is_space d); [done|]. simpl. by rewrite Hd.
  - change (Js.includes c (String d (String e r)))
      with (if Ascii.eqb c d then true else Js.includes c (String e r)).
    by rewrite Hd.
Qed.

Lemma includes_split_pieces c c' s :
  Js.includes c' s = false ->
  Forall (fun p => Js.includes c' p = false) (Js.split c s).
Proof.
  induction s as [|d s IH]; intros H; simpl.
  - by constructor.
  - assert (Hd : Ascii.eqb c' d = false /\ Js.includes c' s = false).
    { simpl in H. by destruct (Ascii.eqb c' d). }
    destruct Hd as [Hd Hs]. specialize (IH Hs).
    destruct (Ascii.eqb c d).
    + by constructor.
    + destruct (Js.split c s) as [|p ps]; constructor; try done.
      * simpl. by rewrite Hd.
      * simpl. rewrite Hd. by inversion IH.
      * by inversion IH.
Qed.

Lemma targets_of_plain_entries (pieces : list string) :
  Forall (fun p => Js.includes ":" p = false) pieces ->
  filter (fun target : string * float => (0 <? snd target)%float = true)
    (map (fun p => parsePort (Some (Js.trim p)) "127.0.0.1" 0) pieces)
  = map (fun pNum => ("127.0.0.1", pNum))
      (omap (fun p => let pNum := Js.parseInt (Js.trim p) in
                      if negb (Js.isNaN pNum) && (0 <? pNum)%float
                      then Some pNum else None) pieces).
Proof.
  induction 1 as [|p pieces Hp _ IH]; [done|].
  assert (Hc : Js.includes ":" (Js.trim p) = false)
    by (by apply includes_trimEnd, includes_trimStart).
  assert (Hpp : parsePort (Some (Js.trim p)) "127.0.0.1" 0
                = ("127.0.0.1",
                   if negb (Js.isNaN (Js.parseInt (Js.trim p)))
                      && (0 <? Js.parseInt (Js.trim p))%float
                   then Js.parseInt (Js.trim p) else 0%float)).
  { unfold parsePort. simpl default. by rewrite Hc. }
  simpl map. rewrite Hpp, filter_cons. simpl omap. simpl snd.
  destruct (negb (Js.isNaN (Js.parseInt (Js.trim p)))
            && (0 <? Js.parseInt (Js.trim p))%float) eqn:Hguard.
  - apply andb_prop in Hguard as [_ Hpos].
    rewrite decide_True by done. simpl. by rewrite IH.
  - rewrite decide_False by done. exact IH.
Qed.

(** The loop of the first revision does what forwarding to its ports on
    127.0.0.1 does. *)
Lemma legacy_forward_loop msg (pieces : list string) :
  map forward_effect (Legacy.forward msg pieces)
  = map Some
      (forwarding msg
         (map (fun pNum => ("127.0.0.1", pNum))
            (omap (fun p => let pNum := Js.parseInt (Js.trim p) in
                            if negb (Js.isNaN pNum) && (0 <? pNum)%float
                            then Some pNum else None) pieces))).
Proof.
  induction pieces as [|p pieces IH]; [done|].
  simpl. destruct (negb (Js.isNaN (Js.parseInt (Js.trim p)))
                   && (0 <? Js.parseInt (Js.trim p))%float); [|exact IH].
  simpl. destruct (valid_port (Js.parseInt (Js.trim p))); [|done].
  simpl. by rewrite IH.
Qed.

(** The store after an accepted message. *)
Lemma message_store env s oscMsg rinfo now1 now2 w :
  is_Some (receivedOne w !! s) ->
  rinfo_address rinfo ∈ myAddresses env ->
  entries (exec (step env (SocketMessage s oscMsg rinfo now1 now2)) w)
  = if bool_decide (address oscMsg = "") then entries w
    else if bool_decide (address oscMsg = "/avatar/change") then ∅
    else entries (exec (receivedParamValue (parseParamFromPath (address oscMsg))
                          (first_value (map arg_value <$> args oscMsg)) false) w).
Proof.
  intros Hs Hfrom. case_bool_decide as He; [|case_bool_decide as Hc].
  - destruct Hs as [b Hs]. unfold step, on_socket, on_message.
    rewrite (bool_decide_eq_true_2 _ Hfrom), (bool_decide_eq_true_2 _ He).
    unfold_monad. rewrite Hs. simpl. rewrite Hs. by destruct b.
  - destruct Hs as [b Hs]. unfold step, on_socket, on_message.
    rewrite (bool_decide_eq_true_2 _ Hfrom), (bool_decide_eq_false_2 _ He),
      (bool_decide_eq_true_2 _ Hc).
    unfold_monad. rewrite Hs. simpl. rewrite Hs. by destruct b.
  - by destruct (message_updates_store env s oscMsg rinfo now1 now2 w Hs Hfrom He Hc).
Qed.

End revisions.

(** X21. The second revision forwards raw datagrams where the first one
    did: for a proxy configuration with no colon in it, the targets of the
    second revision are the ports the first revision reads, each on
    127.0.0.1 and in the same order, and the two ['data'] handlers do the
    same: they send the same bytes to the same targets, stop at the same
    refused port, and leave the state alone. *)
Theorem proxy_targets_agree_with_first_revision :
  forall (proxyPort : string),
    Js.includes ":" proxyPort = false ->
    proxy_targets proxyPort
      = map (fun pNum => ("127.0.0.1", pNum)) (Legacy.proxy_ports proxyPort)
    /\ forall (env : Services) (cfg : Legacy.Config) (msg : list byte)
              (w : World) (st : Legacy.State),
         osc_proxy env = Some proxyPort ->
         Legacy.osc_proxy cfg = Some proxyPort ->
         map forward_effect (snd (Legacy.on_data cfg msg st))
           = map Some (output (listener (on_data env msg)) w)
         /\ fst (Legacy.on_data cfg msg st) = st
         /\ exec (listener (on_data env msg)) w = w.
Proof.
  intros proxyPort Hplain.
  assert (Ht : proxy_targets proxyPort
               = map (fun pNum => ("127.0.0.1", pNum)) (Legacy.proxy_ports proxyPort)).
  { apply targets_of_plain_entries. by apply includes_split_pieces. }
  split; [exact Ht|].
  intros env cfg msg w st Henv Hcfg. unfold output, exec.
  rewrite (on_data_output env msg w proxyPort Henv). simpl.
  unfold Legacy.on_data. rewrite Hcfg. case_bool_decide as He.
  - by subst proxyPort.
  - simpl. by rewrite Ht, legacy_forward_loop.
Qed.

Lemma proxy_targets_agree_with_first_revision_witness :
  proxy_targets "9002, 0,abc ,9004"
  = [("127.0.0.1", 9002%float); ("127.0.0.1", 9004%float)].
Proof.
  rewrite (proj1 (proxy_targets_agree_with_first_revision "9002, 0,abc ,9004" eq_refl)).
  reflexivity.
Defined.

(** Both revisions stop at a port [udpClient.send] refuses. *)
Example both_revisions_stop_at_refused_port :
  snd (Legacy.on_data (Legacy.mkConfig None (Some "9002,70000,9004")) [x2f]
         (Legacy.initial (Legacy.mkConfig None None)))
  = [Legacy.UdpClientSend [x2f] 9002 "127.0.0.1"; Legacy.Uncaught ERR_SOCKET_BAD_PORT]
  /\ output (listener (on_data (mkServices ∅ (Some "9002,70000,9004") None) [x2f]))
       Scenario.opened
     = [UdpClientSend [x2f] 9002 "127.0.0.1"; Uncaught ERR_SOCKET_BAD_PORT].
Proof. split; vm_compute; reflexivity. Qed.

(** X22. The two revisions keep the same store for a trusted sender: if
    their stores hold the same cells, then after the same message (in the
    second revision from a trusted sender) they still do, provided the
    message's first argument, if it has one, is defined. This covers
    parameter updates, the avatar change, other addresses and messages
    without arguments. *)
Theorem revisions_keep_the_same_store :
  forall (env : Services) (cfg : Legacy.Config) (w : World) (st : Legacy.State)
         (s s' : nat) (oscMsg : OscMessage) (rinfo : RemoteInfo) (now now1 now2 : Z),
    same_store st w ->
    is_Some (receivedOne w !! s) ->
    is_Some (Legacy.receivedOne st !! s') ->
    rinfo_address rinfo ∈ myAddresses env ->
    match args oscMsg with
    | Some (arg :: _) => arg_value arg <> Js.Undefined
    | _ => True
    end ->
    same_store (fst (Legacy.step cfg (Legacy.SocketMessage s' oscMsg now) st))
      (exec (step env (SocketMessage s oscMsg rinfo now1 now2)) w).
Proof.
  intros env cfg w st s s' oscMsg rinfo now now1 now2 Hsame Hs [b' Hs'] Hfrom Hdef.
  unfold same_store in *. rewrite (message_store env s oscMsg rinfo now1 now2 w Hs Hfrom).
  simpl. unfold Legacy.on_socket. rewrite Hs'. unfold Legacy.on_message.
  case_bool_decide as He; [exact Hsame|].
  case_bool_decide as Hc; [done|].
  rewrite entries_receivedParamValue. unfold parseParamFromPath, parameters_prefix.
  destruct (args oscMsg) as [[|arg rest]|]; simpl.
  - by destruct (Js.startsWith _ _).
  - destruct (Js.startsWith "/avatar/parameters/" (address oscMsg)); [|exact Hsame].
    destruct (arg_value arg) eqn:Hv; try done; simpl; rewrite Hsame;
      by destruct (entries w !! _).
  - by destruct (Js.startsWith _ _).
Qed.

Lemma revisions_keep_the_same_store_witness :
  let cfg := Legacy.mkConfig None None in
  let oscMsg := Scenario.float_msg "/avatar/parameters/Speed" 1 in
  Legacy._entries (fst (Legacy.step cfg (Legacy.SocketMessage 0 oscMsg 10)
                          (Legacy.initial cfg)))
  = entries (exec (step Scenario.env (SocketMessage 3 oscMsg Scenario.game 10 10))
               Scenario.opened).
Proof.
  intros cfg oscMsg.
  apply (revisions_keep_the_same_store Scenario.env cfg Scenario.opened
           (Legacy.initial cfg) 3%nat 0%nat oscMsg Scenario.game 10 10 10).
  - reflexivity.
  - exists false. vm_compute. reflexivity.
  - exists false. vm_compute. reflexivity.
  - vm_compute. reflexivity.
  - discriminate.
Defined.

(** Where the revisions part: an argument whose value is [undefined] makes
    a cell in the first revision and none in the second. *)
Example undefined_argument_is_stored_by_first_revision :
  let cfg := Legacy.mkConfig None None in
  let oscMsg := mkOscMessage "/avatar/parameters/x" (Some [mkOscArg "N" Js.Undefined]) in
  Legacy._entries (fst (Legacy.step cfg (Legacy.SocketMessage 0 oscMsg 10)
                          (Legacy.initial cfg))) !! "x"
    = Some (mkOscValue Js.Undefined 0)
  /\ entries (exec (step Scenario.env (SocketMessage 3 oscMsg Scenario.game 10 10))
                Scenario.opened) !! "x" = None.
Proof. split; vm_compute; reflexivity. Qed.
